(** * DexieStorageProvider: a shallow embedding in Rocq

    Embedding of [packages/core/src/services/storage/dexieStorageProvider.ts].

    The backing Dexie/IndexedDB engine is modelled as explicit state: the
    [storage] table (a map from key to [StorageRecord]), the clock read by
    [Date.now()], a script of engine responses (one entry consumed by every
    engine primitive call: [None] = the call succeeds, [Some name] = the call
    rejects with an error whose [name] is [name]) and a trace of observable
    interactions (engine calls, transaction begin/end, [setTimeout] delays).
    The provider's own field [dbOpened] is part of the state.

    Asynchronous code is written in a state and exception monad [M]: a
    rejected promise is [Throw e], [try/catch] is [try_catch]. *)

From Stdlib Require Import ZArith Bool List Ascii.
From stdpp Require Import base gmap strings list fin_maps pretty.
Import ListNotations.
Open Scope Z_scope.

(** ** Data model *)

(** A JavaScript [Error]: its [name] and [message]. [new Error(msg)] has
    [name = "Error"]. *)
Record JSError := mkErr { err_name : string; err_message : string }.

Definition newError (msg : string) : JSError := mkErr "Error" msg.

(** [interface StorageRecord { key; value; timestamp? }] *)
Record StorageRecord := mkRecord {
  rec_key : string;
  rec_value : string;
  rec_timestamp : option Z
}.

(** Observable interactions of the provider with its environment. *)
Inductive Event :=
| EvCall (prim : string)      (* an engine primitive call: get, put, ... *)
| EvTxBegin                   (* [db.transaction('rw', ...)] opens a scope *)
| EvTxCommit                  (* the scope committed *)
| EvTxAbort                   (* the scope rolled back *)
| EvSleep (ms : Z).           (* [await new Promise(r => setTimeout(r, ms))] *)

(** The outcome of [this.db.open()], kept in [this.dbOpened]. *)
Inductive OpenState :=
| Opened
| OpenFailed (e : JSError).

Record St := mkSt {
  storage : gmap string StorageRecord;
  clock : Z;
  faults : list (option string);
  trace : list Event;
  dbOpened : OpenState
}.

(** ** The monad: state and JavaScript exceptions *)

Inductive result (A : Type) :=
| Ok (a : A)
| Throw (e : JSError).
Arguments Ok {A} a.
Arguments Throw {A} e.

Definition M (A : Type) := St -> result A * St.

Definition retM {A} (a : A) : M A := fun s => (Ok a, s).

Definition bindM {A B} (c : M A) (k : A -> M B) : M B :=
  fun s => match c s with
           | (Ok a, s1) => k a s1
           | (Throw e, s1) => (Throw e, s1)
           end.

Definition throwM {A} (e : JSError) : M A := fun s => (Throw e, s).

(** [try { c } catch (e) { h(e) }] *)
Definition try_catch {A} (c : M A) (h : JSError -> M A) : M A :=
  fun s => match c s with
           | (Ok a, s1) => (Ok a, s1)
           | (Throw e, s1) => h e s1
           end.

Notation "'let!' x ':=' c 'in' k" := (bindM c (fun x => k))
  (at level 200, x name, c at level 100, k at level 200).
Notation "c1 ;; c2" := (bindM c1 (fun _ => c2))
  (at level 100, right associativity).

Definition set_storage (m : gmap string StorageRecord) (s : St) : St :=
  mkSt m (clock s) (faults s) (trace s) (dbOpened s).
Definition set_clock (c : Z) (s : St) : St :=
  mkSt (storage s) c (faults s) (trace s) (dbOpened s).
Definition set_faults (f : list (option string)) (s : St) : St :=
  mkSt (storage s) (clock s) f (trace s) (dbOpened s).
Definition log_event (ev : Event) (s : St) : St :=
  mkSt (storage s) (clock s) (faults s) (trace s ++ [ev]) (dbOpened s).

(** [Date.now()] *)
Definition date_now : M Z := fun s => (Ok (clock s), s).

(** [await new Promise(resolve => setTimeout(resolve, delay))] *)
Definition sleep (delay : Z) : M unit :=
  fun s => (Ok tt, log_event (EvSleep delay) (set_clock (clock s + delay) s)).

(** ** The backing engine *)

(** One engine round trip: logs the call and consumes the next scripted
    response; a scripted failure rejects with an error of that name. *)
Definition engine (prim : string) : M unit :=
  fun s =>
    let s1 := log_event (EvCall prim) s in
    match faults s1 with
    | [] => (Ok tt, s1)
    | None :: rest => (Ok tt, set_faults rest s1)
    | Some nm :: rest => (Throw (mkErr nm prim), set_faults rest s1)
    end.

Definition table_get (key : string) : M (option StorageRecord) :=
  engine "get";; fun s => (Ok (storage s !! key), s).

Definition table_put (r : StorageRecord) : M unit :=
  engine "put";; fun s => (Ok tt, set_storage (<[rec_key r := r]> (storage s)) s).

Definition table_delete (key : string) : M unit :=
  engine "delete";; fun s => (Ok tt, set_storage (delete key (storage s)) s).

Definition table_clear : M unit :=
  engine "clear";; fun s => (Ok tt, set_storage ∅ s).

(** [bulkPut]: the records are put in list order (a later record with the
    same key overwrites an earlier one). *)
Definition put_all (rs : list StorageRecord) (m : gmap string StorageRecord)
  : gmap string StorageRecord :=
  fold_left (fun acc r => <[rec_key r := r]> acc) rs m.

Definition table_bulkPut (rs : list StorageRecord) : M unit :=
  engine "bulkPut";; fun s => (Ok tt, set_storage (put_all rs (storage s)) s).

Definition delete_all (ks : list string) (m : gmap string StorageRecord)
  : gmap string StorageRecord :=
  fold_left (fun acc k => delete k acc) ks m.

Definition table_bulkDelete (ks : list string) : M unit :=
  engine "bulkDelete";; fun s => (Ok tt, set_storage (delete_all ks (storage s)) s).

Definition table_count : M nat :=
  engine "count";; fun s => (Ok (size (storage s)), s).

Definition table_toArray : M (list StorageRecord) :=
  engine "toArray";; fun s => (Ok (map snd (map_to_list (storage s))), s).

(** [orderBy('timestamp').last()]: the record with the greatest timestamp
    (records without a timestamp are not in the index). *)
Definition later (r : StorageRecord) (acc : option StorageRecord) : option StorageRecord :=
  match rec_timestamp r, acc with
  | None, _ => acc
  | Some _, None => Some r
  | Some t, Some a =>
      match rec_timestamp a with
      | Some ta => if Z.leb ta t then Some r else acc
      | None => Some r
      end
  end.

Definition table_lastByTimestamp : M (option StorageRecord) :=
  engine "orderBy.last";;
  fun s => (Ok (fold_right later None (map snd (map_to_list (storage s)))), s).

(** [db.transaction('rw', db.storage, body)]: the body runs in a scope;
    if it rejects, or if the commit fails, the table is rolled back to its
    state when the scope opened and the transaction rejects with that error. *)
Definition transaction {A} (body : M A) : M A :=
  fun s0 =>
    let snapshot := storage s0 in
    let s := log_event EvTxBegin s0 in
    match body s with
    | (Throw e, s1) => (Throw e, log_event EvTxAbort (set_storage snapshot s1))
    | (Ok a, s1) =>
        match engine "commit" s1 with
        | (Throw e, s2) => (Throw e, log_event EvTxAbort (set_storage snapshot s2))
        | (Ok _, s2) => (Ok a, log_event EvTxCommit s2)
        end
    end.

(** ** The provider *)

(** [JSON.parse] / [JSON.stringify] at the caller's value type [T];
    [parse] returns [None] where [JSON.parse] throws. *)
Record Codec (T : Type) := mkCodec {
  parse : string -> option T;
  stringify : T -> string
}.
Arguments parse {T} c _.
Arguments stringify {T} c _.

Definition syntaxError : JSError := mkErr "SyntaxError" "JSON.parse".

(** [private async initialize() { await this.dbOpened; }]: [dbOpened] is the
    promise created once in the constructor; when [db.open()] failed it is
    rejected with that error for ever. *)
Definition initialize : M unit :=
  fun s => match dbOpened s with
           | Opened => (Ok tt, s)
           | OpenFailed e => (Throw e, s)
           end.

Definition getItem (key : string) : M (option string) :=
  initialize;;
  try_catch
    (let! record := table_get key in retM (option_map rec_value record))
    (fun _ => throwM (newError ("Failed to get item: " +:+ key))).

Definition setItem (key value : string) : M unit :=
  initialize;;
  try_catch
    (let! now := date_now in table_put (mkRecord key value (Some now)))
    (fun _ => throwM (newError ("Failed to set item: " +:+ key))).

Definition removeItem (key : string) : M unit :=
  initialize;;
  try_catch (table_delete key)
    (fun _ => throwM (newError ("Failed to remove item: " +:+ key))).

Definition clearAll : M unit :=
  initialize;;
  try_catch table_clear (fun _ => throwM (newError "Failed to clear storage")).

(** [isError]: every rejection in this model carries an [Error] object
    (Dexie's errors extend [Error]; the provider throws [new Error(...)]). *)
Definition isError (_ : JSError) : bool := true.

Definition is_premature_commit (e : JSError) : bool :=
  isError e && bool_decide (err_name e = "PrematureCommitError").

Section Atomic.
Context {T : Type} (codec : Codec T).

(** [currentRecord?.value ? JSON.parse(currentRecord.value) : null]
    (the empty string is falsy). *)
Definition decode (record : option StorageRecord) : M (option T) :=
  match record with
  | None => retM None
  | Some r =>
      if bool_decide (rec_value r = "") then retM None
      else match parse codec (rec_value r) with
           | Some v => retM (Some v)
           | None => throwM syntaxError
           end
  end.

(** [_performSimpleUpdate]: plain get, [updateFn], plain put. *)
Definition _performSimpleUpdate (key : string) (updateFn : option T -> T) : M unit :=
  try_catch
    (let! currentRecord := table_get key in
     let! currentValue := decode currentRecord in
     let newValue := updateFn currentValue in
     let! now := date_now in
     table_put (mkRecord key (stringify codec newValue) (Some now)))
    (fun _ => throwM (newError ("Failed to perform simple update: " +:+ key))).

(** [_performAtomicUpdate]: read-modify-write inside one transaction; the
    rejection is rethrown as a new [Error]. *)
Definition _performAtomicUpdate (key : string) (updateFn : option T -> T) : M unit :=
  try_catch
    (transaction
       (try_catch
          (let! currentRecord := table_get key in
           let! currentValue := decode currentRecord in
           let newValue := updateFn currentValue in
           let! now := date_now in
           table_put (mkRecord key (stringify codec newValue) (Some now)))
          (fun innerError => throwM innerError)))
    (fun error =>
       if is_premature_commit error then
         throwM (newError ("Database transaction error for key " +:+ key +:+ ": "
                           +:+ err_message error +:+ ". Please try again."))
       else throwM (newError ("Failed to perform atomic update: " +:+ key))).

(** [Math.min(100 * Math.pow(2, attempt - 1), 1000)] *)
Definition backoff (attempt : nat) : Z :=
  Z.min (100 * 2 ^ (Z.of_nat attempt - 1)) 1000.

(** The loop [for (let attempt = 1; attempt <= maxRetries; attempt++)] of
    [_performAtomicUpdateWithRetry], from iteration [attempt] on; [fuel] is
    the number of iterations left, [maxRetries - attempt + 1]. *)
Fixpoint retry_loop (fuel attempt maxRetries : nat) (lastError : option JSError)
  (key : string) (updateFn : option T -> T) : M unit :=
  match fuel with
  | O =>
      throwM (match lastError with
              | Some e => e
              | None => newError "Failed to perform atomic update after attempts"
              end)
  | S fuel' =>
      try_catch (_performAtomicUpdate key updateFn;; retM tt)
        (fun error =>
           if is_premature_commit error && Nat.ltb attempt maxRetries then
             sleep (backoff attempt);;
             retry_loop fuel' (S attempt) maxRetries (Some error) key updateFn
           else if Nat.eqb attempt maxRetries then
             try_catch (_performSimpleUpdate key updateFn;; retM tt)
               (fun _fallbackError => throwM error)
           else retry_loop fuel' (S attempt) maxRetries (Some error) key updateFn)
  end.

Definition _performAtomicUpdateWithRetry (key : string) (updateFn : option T -> T)
  (maxRetries : nat) : M unit :=
  retry_loop maxRetries 1 maxRetries None key updateFn.

(** [atomicUpdate] as one caller sees it when it runs alone: the key lock
    [keyLocks] is free, so the call initialises and runs the retry loop with
    the default [maxRetries = 3]; the interleaving of concurrent callers on
    the lock table is modelled in [Module KeyLocks] below. *)
Definition atomicUpdate (key : string) (updateFn : option T -> T) : M unit :=
  initialize;;
  _performAtomicUpdateWithRetry key updateFn 3.

Definition updateData (key : string) (modifier : option T -> T) : M unit :=
  atomicUpdate key modifier.

End Atomic.

(** [{ key; operation: 'set' | 'remove'; value?: string }] *)
Inductive Operation := OpSet | OpRemove.

Record BatchOp := mkOp {
  op_key : string;
  op_operation : Operation;
  op_value : option string
}.

(** The staging loop of [batchUpdate]: [updates] and [deletions] collected
    in list order. *)
Fixpoint stage (operations : list BatchOp) (updates : list StorageRecord)
  (deletions : list string) : M (list StorageRecord * list string) :=
  match operations with
  | [] => retM (updates, deletions)
  | o :: rest =>
      match op_operation o, op_value o with
      | OpSet, Some value =>
          let! now := date_now in
          stage rest (updates ++ [mkRecord (op_key o) value (Some now)]) deletions
      | OpRemove, _ => stage rest updates (deletions ++ [op_key o])
      | OpSet, None => stage rest updates deletions
      end
  end.

Definition batchUpdate (operations : list BatchOp) : M unit :=
  initialize;;
  try_catch
    (transaction
       (let! staged := stage operations [] [] in
        let '(updates, deletions) := staged in
        (if bool_decide (0 < length updates)%nat then table_bulkPut updates else retM tt);;
        (if bool_decide (0 < length deletions)%nat then table_bulkDelete deletions else retM tt)))
    (fun _ => throwM (newError "Failed to perform batch update")).

Record StorageInfo := mkInfo {
  itemCount : nat;
  estimatedSize : nat;
  lastUpdated : option Z
}.

Definition zeroInfo : StorageInfo := mkInfo 0 0 None.

Definition getStorageInfo : M StorageInfo :=
  initialize;;
  try_catch
    (let! itemCount := table_count in
     let! lastRecord := table_lastByTimestamp in
     let! allRecords := table_toArray in
     let estimatedSize :=
       fold_left (fun total record => (total + String.length (rec_value record))%nat)
         allRecords 0%nat in
     retM (mkInfo itemCount estimatedSize
             (match lastRecord with Some r => rec_timestamp r | None => None end)))
    (fun _ => retM zeroInfo).

Definition exportAll : M (gmap string string) :=
  initialize;;
  try_catch
    (let! allRecords := table_toArray in
     retM (fold_left (fun result record => <[rec_key record := rec_value record]> result)
             allRecords ∅))
    (fun _ => throwM (newError "Failed to export data")).

(** [importAll(data)]; [data] is given as [Object.entries(data)]. *)
Definition importAll (data : list (string * string)) : M unit :=
  initialize;;
  try_catch
    (let! now := date_now in
     let records := map (fun '(key, value) => mkRecord key value (Some now)) data in
     table_bulkPut records)
    (fun _ => throwM (newError "Failed to import data")).

(** ** Example instances *)

(** A codec for values stored as their own text, used to run the provider
    on concrete inputs. *)
Definition text_codec : Codec string := mkCodec string (fun v => Some v) (fun v => v).

(** A counter-like [updateFn] on text values: absent gives ["1"], a
    present value gets ["+1"] appended. *)
Definition bump (current : option string) : string :=
  match current with
  | None => "1"
  | Some v => v +:+ "+1"
  end.

(** A freshly opened, empty store at time [1000] with the engine script [f]. *)
Definition fresh (f : list (option string)) : St := mkSt ∅ 1000 f [] Opened.

(** ** Initialization failure *)

(** A call of one of the provider's public operations (all but [close]). *)
Inductive Request : Type :=
| RGetItem (key : string)
| RSetItem (key value : string)
| RRemoveItem (key : string)
| RClearAll
| RAtomicUpdate (T : Type) (codec : Codec T) (key : string) (updateFn : option T -> T)
| RUpdateData (T : Type) (codec : Codec T) (key : string) (modifier : option T -> T)
| RBatchUpdate (operations : list BatchOp)
| RGetStorageInfo
| RExportAll
| RImportAll (data : list (string * string)).

Definition discard {A} (c : M A) : M unit := c;; retM tt.

Definition run_request (r : Request) : M unit :=
  match r with
  | RGetItem key => discard (getItem key)
  | RSetItem key value => setItem key value
  | RRemoveItem key => removeItem key
  | RClearAll => clearAll
  | RAtomicUpdate T codec key updateFn => atomicUpdate codec key updateFn
  | RUpdateData T codec key modifier => updateData codec key modifier
  | RBatchUpdate operations => batchUpdate operations
  | RGetStorageInfo => discard getStorageInfo
  | RExportAll => discard exportAll
  | RImportAll data => importAll data
  end.

(** A sequence of calls on one provider instance, each one's outcome. *)
Fixpoint run_requests (rs : list Request) : St -> list (result unit) * St :=
  fun s =>
    match rs with
    | [] => ([], s)
    | r :: rest =>
        let '(o, s1) := run_request r s in
        let '(os, s2) := run_requests rest s1 in
        (o :: os, s2)
    end.

(** A [set] entry without a value. *)
Definition set_undefined (key : string) : BatchOp := mkOp key OpSet None.

(** A store holding ["a"] (written at time [5]). *)
Definition store_a : St :=
  mkSt (<["a" := mkRecord "a" "old" (Some 5)]> ∅) 1000 [] [] Opened.

(** ** Batch update: staged lists *)

(** The records and keys [stage] collects, as plain lists. *)
Fixpoint staged_updates (now : Z) (operations : list BatchOp) : list StorageRecord :=
  match operations with
  | [] => []
  | o :: rest =>
      match op_operation o, op_value o with
      | OpSet, Some value => mkRecord (op_key o) value (Some now) :: staged_updates now rest
      | _, _ => staged_updates now rest
      end
  end.

Fixpoint staged_deletions (operations : list BatchOp) : list string :=
  match operations with
  | [] => []
  | o :: rest =>
      match op_operation o with
      | OpRemove => op_key o :: staged_deletions rest
      | OpSet => staged_deletions rest
      end
  end.

(** Whether the batch has a ['remove'] entry for [key]. *)
Definition removes_key (operations : list BatchOp) (key : string) : bool :=
  existsb (fun o => match op_operation o with
                    | OpRemove => bool_decide (op_key o = key)
                    | OpSet => false
                    end) operations.

(** The value of the last ['set'] entry with a value for [key]. *)
Fixpoint last_set (operations : list BatchOp) (key : string) : option string :=
  match operations with
  | [] => None
  | o :: rest =>
      match last_set rest key with
      | Some v => Some v
      | None =>
          match op_operation o, op_value o with
          | OpSet, Some value => if bool_decide (op_key o = key) then Some value else None
          | _, _ => None
          end
      end
  end.

(** ** The key lock table of [atomicUpdate] *)

(** Concurrent callers of [atomicUpdate] and the provider's
    [keyLocks: Map<string, Promise<void>>]. Each caller runs the code

      await this.initialize();
      if (this.keyLocks.has(lockKey)) await this.keyLocks.get(lockKey);
      const lockPromise = this._performAtomicUpdateWithRetry(key, updateFn);
      this.keyLocks.set(lockKey, lockPromise);
      try { await lockPromise; } finally { this.keyLocks.delete(lockKey); }

    between its suspension points. A promise stored in the map is named by
    the index of the caller that created it. *)
Module KeyLocks.

Inductive Pc :=
| AwaitInit                 (* suspended at [await this.initialize()] *)
| AwaitLock (holder : nat)  (* suspended at [await this.keyLocks.get(lockKey)] *)
| Running                   (* its [_performAtomicUpdateWithRetry] is in flight *)
| Settled (ok : bool)       (* its [lockPromise] settled; [finally] not yet run *)
| Done (ok : bool).         (* returned ([true]) or rejected ([false]) *)

Record Caller := mkCaller { c_key : string; c_pc : Pc }.

Record LSt := mkLSt { callers : list Caller; keyLocks : gmap string nat }.

Definition lockKey (key : string) : string := "atomic_" +:+ key.

Definition set_pc (i : nat) (pc : Pc) (st : LSt) : LSt :=
  mkLSt (<[i := mkCaller (default "" (c_key <$> callers st !! i)) pc]> (callers st))
        (keyLocks st).

(** The caller [i] passes the lock: it starts [_performAtomicUpdateWithRetry]
    and stores its promise under [lockKey]. *)
Definition start (i : nat) (key : string) (st : LSt) : LSt :=
  let st1 := set_pc i Running st in
  mkLSt (callers st1) (<[lockKey key := i]> (keyLocks st1)).

Inductive Action :=
| Resume (i : nat)               (* the caller's awaited promise has settled *)
| Complete (i : nat) (ok : bool) (* the caller's [lockPromise] settles *)
| Release (i : nat).             (* the caller's [finally] runs *)

Definition settled_outcome (pc : Pc) : option bool :=
  match pc with
  | Settled ok | Done ok => Some ok
  | _ => None
  end.

(** One step of the chosen caller; [None] when it cannot take it. *)
Definition step (a : Action) (st : LSt) : option LSt :=
  match a with
  | Resume i =>
      match callers st !! i with
      | Some (mkCaller key AwaitInit) =>
          match keyLocks st !! lockKey key with
          | Some holder => Some (set_pc i (AwaitLock holder) st)
          | None => Some (start i key st)
          end
      | Some (mkCaller key (AwaitLock holder)) =>
          match callers st !! holder with
          | Some h =>
              match settled_outcome (c_pc h) with
              | Some true => Some (start i key st)
              (* [await] of a rejected promise rethrows *)
              | Some false => Some (set_pc i (Done false) st)
              | None => None
              end
          | None => None
          end
      | _ => None
      end
  | Complete i ok =>
      match callers st !! i with
      | Some (mkCaller _ Running) => Some (set_pc i (Settled ok) st)
      | _ => None
      end
  | Release i =>
      match callers st !! i with
      | Some (mkCaller key (Settled ok)) =>
          let st1 := set_pc i (Done ok) st in
          Some (mkLSt (callers st1) (delete (lockKey key) (keyLocks st1)))
      | _ => None
      end
  end.

Fixpoint run (schedule : list Action) (st : LSt) : option LSt :=
  match schedule with
  | [] => Some st
  | a :: rest => match step a st with
                 | Some st1 => run rest st1
                 | None => None
                 end
  end.

(** [atomicUpdate(keys[0], ...)], [atomicUpdate(keys[1], ...)], ... called
    in one synchronous run: each caller is suspended at its first [await],
    the lock table is empty. *)
Definition initial (keys : list string) : LSt :=
  mkLSt (map (fun key => mkCaller key AwaitInit) keys) ∅.

(** At most one caller per key has its update in flight. *)
Definition exclusive (st : LSt) : Prop :=
  forall i j ci cj, i <> j ->
    callers st !! i = Some ci -> callers st !! j = Some cj ->
    c_pc ci = Running -> c_pc cj = Running -> c_key ci <> c_key cj.

(** The order in which JavaScript runs three same-key callers issued in
    one tick: each resumes from [initialize()] in call order; caller 0
    takes the lock, callers 1 and 2 find it held and await caller 0's
    promise; when it settles, the reactions registered on it run in
    registration order: caller 0's [finally], then caller 1, then caller 2. *)
Definition same_tick_schedule : list Action :=
  [Resume 0; Resume 1; Resume 2; Complete 0 true; Release 0; Resume 1; Resume 2].

(** Every entry of [keyLocks] names a caller of that key whose update is
    in flight or whose promise has settled but whose [finally] has not run. *)
Definition lock_inv (st : LSt) : Prop :=
  forall (lk : string) (i : nat), keyLocks st !! lk = Some i ->
    exists key pc, callers st !! i = Some (mkCaller key pc) /\ lk = lockKey key /\
      (pc = Running \/ exists ok, pc = Settled ok).

(** Every caller has returned or rejected. *)
Definition all_done (st : LSt) : Prop :=
  forall (i : nat) c, callers st !! i = Some c -> exists ok, c_pc c = Done ok.

End KeyLocks.

(** ** Store invariants and trace shapes *)

(** Every record is stored under its own [key] (the table's primary key is
    the record's [key] field). *)
Definition keys_consistent (m : gmap string StorageRecord) : Prop :=
  map_Forall (fun k r => rec_key r = k) m.

(** A computation keeps a property of the table. *)
Definition preserves {A} (P : gmap string StorageRecord -> Prop) (c : M A) : Prop :=
  forall s, P (storage s) -> P (storage (snd (c s))).

Definition not_sleep (ev : Event) : Prop :=
  match ev with EvSleep _ => False | _ => True end.

(** A computation only appends to the trace, and what it appends has no
    [setTimeout] delay. *)
Definition never_sleeps {A} (c : M A) : Prop :=
  forall s, exists tr, trace (snd (c s)) = trace s ++ tr /\ Forall not_sleep tr.

(** A codec of natural numbers written as JSON numbers (decimal, no
    leading zero). *)
Fixpoint digits_value (v : string) (acc : nat) : option nat :=
  match v with
  | EmptyString => Some acc
  | String c rest =>
      let n := Ascii.nat_of_ascii c in
      if (48 <=? n)%nat && (n <=? 57)%nat
      then digits_value rest (acc * 10 + (n - 48))%nat
      else None
  end.

Definition parse_nat (v : string) : option nat :=
  match v with
  | EmptyString => None
  | String c (String _ _) =>
      if Ascii.eqb c "0"%char then None else digits_value v 0
  | _ => digits_value v 0
  end.

Definition nat_codec : Codec nat := mkCodec nat parse_nat (fun n => pretty n).

(** [x => (x ?? 0) + 1] *)
Definition increment (current : option nat) : nat :=
  match current with None => 1 | Some n => n + 1 end%nat.

(** [decode] as a value: what the read-and-parse step yields. *)
Definition decode_value {T} (codec : Codec T) (record : option StorageRecord) : result (option T) :=
  match record with
  | None => Ok None
  | Some r =>
      if bool_decide (rec_value r = "") then Ok None
      else match parse codec (rec_value r) with
           | Some v => Ok (Some v)
           | None => Throw syntaxError
           end
  end.

(** The table is left as it was whenever [c] rejects. *)
Definition fail_atomic {A} (c : M A) : Prop :=
  forall s e s1, c s = (Throw e, s1) -> storage s1 = storage s.

(** [c] never changes the table. *)
Definition read_only {A} (c : M A) : Prop :=
  forall m0, preserves (fun m => m = m0) c.

Definition is_tx_begin (ev : Event) : bool :=
  match ev with EvTxBegin => true | _ => false end.

(** The number of transactions opened in a trace. *)
Definition tx_count (tr : list Event) : nat := length (List.filter is_tx_begin tr).

(** [c] opens at most [n] transactions. *)
Definition tx_bound {A} (n : nat) (c : M A) : Prop :=
  forall s, exists tr, trace (snd (c s)) = trace s ++ tr /\ (tx_count tr <= n)%nat.

(** A store whose ["counter"] holds text that is not a JSON number. *)
Definition store_corrupt : St :=
  mkSt (<["counter" := mkRecord "counter" "abc" (Some 5)]> ∅) 1000 [] [] Opened.

(** ** Properties of the retry loop *)

Lemma _performAtomicUpdate_error_name {T} (codec : Codec T) key updateFn s e s' :
  _performAtomicUpdate codec key updateFn s = (Throw e, s') -> err_name e = "Error".
Proof.
  unfold _performAtomicUpdate, try_catch.
  destruct (transaction _ s) as [[a | e0] s1]; intros H; [discriminate |].
  destruct (is_premature_commit e0); inversion H; reflexivity.
Qed.

Lemma _performAtomicUpdate_not_premature {T} (codec : Codec T) key updateFn s e s' :
  _performAtomicUpdate codec key updateFn s = (Throw e, s') -> is_premature_commit e = false.
Proof.
  intros H. apply _performAtomicUpdate_error_name in H.
  unfold is_premature_commit. rewrite H. reflexivity.
Qed.

Lemma retry_step_fail {T} (codec : Codec T) fuel attempt maxRetries lastError key updateFn s e s1 :
  _performAtomicUpdate codec key updateFn s = (Throw e, s1) ->
  retry_loop codec (S fuel) attempt maxRetries lastError key updateFn s =
  (if Nat.eqb attempt maxRetries then
     try_catch (_performSimpleUpdate codec key updateFn;; retM tt)
       (fun _ => throwM e) s1
   else retry_loop codec fuel (S attempt) maxRetries (Some e) key updateFn s1).
Proof.
  intros H. pose proof (_performAtomicUpdate_not_premature _ _ _ _ _ _ H) as Hp.
  cbn [retry_loop]. unfold try_catch at 1, bindM at 1. rewrite H, Hp. cbn [andb].
  destruct (Nat.eqb attempt maxRetries); reflexivity.
Qed.

(** C1 (the code at a transient commit conflict): the first commit of
    [atomicUpdate("counter", bump)] rejects with [PrematureCommitError]; the
    provider opens the second transactional attempt right after the first
    one's rollback, with no [setTimeout] delay in between (the trace has no
    [EvSleep]) and the clock unchanged. *)
Theorem atomicUpdate_conflict_no_backoff :
  let s := fresh [None; None; Some "PrematureCommitError"] in
  fst (atomicUpdate text_codec "counter" bump s) = Ok tt /\
  trace (snd (atomicUpdate text_codec "counter" bump s)) =
    [EvTxBegin; EvCall "get"; EvCall "put"; EvCall "commit"; EvTxAbort;
     EvTxBegin; EvCall "get"; EvCall "put"; EvCall "commit"; EvTxCommit] /\
  clock (snd (atomicUpdate text_codec "counter" bump s)) = 1000.
Proof. vm_compute. repeat split. Qed.

(** C3 (the code at a non-transient failure): the first transactional
    attempt of [atomicUpdate("counter", bump)] fails because its [put]
    rejects with [ConstraintError] (not a commit conflict); the provider
    does not fall back to the simple update but opens a second transactional
    attempt. *)
Theorem atomicUpdate_nontransient_retries_transaction :
  let s := fresh [None; Some "ConstraintError"] in
  fst (atomicUpdate text_codec "counter" bump s) = Ok tt /\
  trace (snd (atomicUpdate text_codec "counter" bump s)) =
    [EvTxBegin; EvCall "get"; EvCall "put"; EvTxAbort;
     EvTxBegin; EvCall "get"; EvCall "put"; EvCall "commit"; EvTxCommit].
Proof. vm_compute. split; reflexivity. Qed.

(** C6: when all [maxRetries = 3] transactional attempts fail (with errors
    [e1], [e2], [e3]), [_performAtomicUpdateWithRetry] ends with the simple
    update: if it succeeds the operation succeeds, and if it fails the
    operation rejects with [e3], the failure of the last transactional
    attempt, not the simple update's own error. *)
Theorem atomicUpdate_exhausted_fallback {T} (codec : Codec T) key updateFn
  s s1 s2 s3 e1 e2 e3 :
  _performAtomicUpdate codec key updateFn s = (Throw e1, s1) ->
  _performAtomicUpdate codec key updateFn s1 = (Throw e2, s2) ->
  _performAtomicUpdate codec key updateFn s2 = (Throw e3, s3) ->
  _performAtomicUpdateWithRetry codec key updateFn 3 s =
  match _performSimpleUpdate codec key updateFn s3 with
  | (Ok _, s4) => (Ok tt, s4)
  | (Throw _, s4) => (Throw e3, s4)
  end.
Proof.
  intros H1 H2 H3. unfold _performAtomicUpdateWithRetry.
  erewrite retry_step_fail by exact H1. cbn [Nat.eqb].
  erewrite retry_step_fail by exact H2. cbn [Nat.eqb].
  erewrite retry_step_fail by exact H3. cbn [Nat.eqb].
  unfold try_catch, bindM, retM, throwM.
  destruct (_performSimpleUpdate codec key updateFn s3) as [[a | e] s4]; reflexivity.
Qed.

Lemma atomicUpdate_exhausted_fallback_witness :
  let s := fresh [None; None; Some "PrematureCommitError";
                  None; None; Some "PrematureCommitError";
                  None; None; Some "PrematureCommitError"; Some "UnknownError"] in
  _performAtomicUpdate text_codec "counter" bump s =
    (Throw (newError "Database transaction error for key counter: commit. Please try again."),
     snd (_performAtomicUpdate text_codec "counter" bump s)) /\
  _performAtomicUpdateWithRetry text_codec "counter" bump 3 s =
  match _performSimpleUpdate text_codec "counter" bump
          (snd (_performAtomicUpdate text_codec "counter" bump
                  (snd (_performAtomicUpdate text_codec "counter" bump
                          (snd (_performAtomicUpdate text_codec "counter" bump s)))))) with
  | (Ok _, s4) => (Ok tt, s4)
  | (Throw _, s4) => (Throw (newError "Database transaction error for key counter: commit. Please try again."), s4)
  end.
Proof.
  intros s. set (p := _performAtomicUpdate text_codec "counter" bump).
  set (e := newError "Database transaction error for key counter: commit. Please try again.").
  split; [vm_compute; reflexivity |].
  apply (atomicUpdate_exhausted_fallback text_codec "counter" bump
           s (snd (p s)) (snd (p (snd (p s)))) (snd (p (snd (p (snd (p s)))))) e e e);
  vm_compute; reflexivity.
Defined.

(** ** Initialization failure: every operation *)

Lemma initialize_failed {A} (k : M A) s e :
  dbOpened s = OpenFailed e -> (initialize;; k) s = (Throw e, s).
Proof. intros H. unfold bindM, initialize. rewrite H. reflexivity. Qed.

(** C7: once the one-time open has failed with [e], every later call of
    every operation rejects with that same [e] and leaves the provider
    untouched (no engine call, no new open: [dbOpened] stays [e]). *)
Theorem init_failure_fails_all (rs : list Request) s e :
  dbOpened s = OpenFailed e ->
  run_requests rs s = (map (fun _ => Throw e) rs, s).
Proof.
  intros H. induction rs as [| r rest IH]; [reflexivity |].
  assert (Hr : run_request r s = (Throw e, s)).
  { destruct r; cbn [run_request];
      unfold discard, atomicUpdate, updateData, getItem, setItem, removeItem, clearAll,
        batchUpdate, getStorageInfo, exportAll, importAll;
      first [ apply initialize_failed; exact H
            | unfold bindM at 1; rewrite (initialize_failed _ _ _ H); reflexivity ]. }
  cbn [run_requests]. rewrite Hr, IH. reflexivity.
Qed.

Lemma init_failure_fails_all_witness :
  let s := mkSt ∅ 0 [] [] (OpenFailed (mkErr "OpenFailedError" "blocked")) in
  dbOpened s = OpenFailed (mkErr "OpenFailedError" "blocked") /\
  run_requests [RSetItem "a" "1"; RGetItem "a"; RGetStorageInfo;
                RAtomicUpdate string text_codec "counter" bump] s =
  (map (fun _ => Throw (mkErr "OpenFailedError" "blocked"))
     [RSetItem "a" "1"; RGetItem "a"; RGetStorageInfo;
      RAtomicUpdate string text_codec "counter" bump], s).
Proof.
  intros s. split; [reflexivity |].
  apply init_failure_fails_all. reflexivity.
Defined.

(** ** Single-key round trip *)

Lemma engine_storage prim s : storage (snd (engine prim s)) = storage s.
Proof. unfold engine. cbn. destruct (faults s) as [| [nm |] rest]; reflexivity. Qed.

Lemma engine_ok_storage prim s s' :
  engine prim s = (Ok tt, s') -> storage s' = storage s.
Proof.
  intros H. rewrite <- (engine_storage prim s), H. reflexivity.
Qed.

Lemma setItem_stores key value s s1 :
  setItem key value s = (Ok tt, s1) ->
  storage s1 !! key = Some (mkRecord key value (Some (clock s))).
Proof.
  unfold setItem, bindM at 1, initialize.
  destruct (dbOpened s) as [| e0]; [| discriminate].
  unfold table_put, try_catch, bindM, date_now.
  destruct (engine "put" s) as [[[] | e] s'] eqn:He; cbn; intros H; [| discriminate].
  inversion H; subst. cbn. apply lookup_insert_eq.
Qed.

(** C8: after [setItem(k, v)] succeeds, a [getItem(k)] that succeeds
    returns exactly [v]. *)
Theorem setItem_getItem key value s s1 x s2 :
  setItem key value s = (Ok tt, s1) ->
  getItem key s1 = (Ok x, s2) ->
  x = Some value.
Proof.
  intros Hset. pose proof (setItem_stores _ _ _ _ Hset) as Hk.
  unfold getItem, bindM at 1, initialize.
  destruct (dbOpened s1) as [| e0]; [| discriminate].
  unfold table_get, try_catch, bindM, retM.
  destruct (engine "get" s1) as [[[] | e] s'] eqn:He; cbn.
  - intros H. inversion H; subst.
    rewrite (engine_ok_storage _ _ _ He), Hk. reflexivity.
  - intros H; discriminate.
Qed.

Lemma setItem_getItem_witness :
  setItem "model" "gpt" (fresh []) = (Ok tt, snd (setItem "model" "gpt" (fresh []))) /\
  getItem "model" (snd (setItem "model" "gpt" (fresh []))) =
    (Ok (Some "gpt"), snd (getItem "model" (snd (setItem "model" "gpt" (fresh []))))) /\
  Some "gpt" = Some "gpt".
Proof.
  split; [vm_compute; reflexivity |]. split; [vm_compute; reflexivity |].
  apply (setItem_getItem "model" "gpt" (fresh []) (snd (setItem "model" "gpt" (fresh [])))
           (Some "gpt") (snd (getItem "model" (snd (setItem "model" "gpt" (fresh []))))));
  vm_compute; reflexivity.
Defined.

(** ** Batch updates *)

Lemma stage_skip_undefined l1 key l2 updates deletions s :
  stage (l1 ++ set_undefined key :: l2) updates deletions s =
  stage (l1 ++ l2) updates deletions s.
Proof.
  revert updates deletions s.
  induction l1 as [| o l1 IH]; intros updates deletions s; [reflexivity |].
  cbn [app stage]. destruct (op_operation o), (op_value o);
    [unfold bindM, date_now | ..]; apply IH.
Qed.

(** C9: in [batchUpdate], a ['set'] entry whose [value] is [undefined] is
    skipped: the batch behaves exactly as the batch without that entry
    (same outcome, same store, same engine calls). *)
Theorem batchUpdate_skips_undefined_set l1 key l2 s :
  batchUpdate (l1 ++ set_undefined key :: l2) s = batchUpdate (l1 ++ l2) s.
Proof.
  unfold batchUpdate, initialize, try_catch, transaction, bindM.
  destruct (dbOpened s) as [| e]; [| reflexivity].
  rewrite stage_skip_undefined. reflexivity.
Qed.

(** ** Import *)

Lemma put_all_lookup_notin (rs : list StorageRecord) m key :
  key ∉ map rec_key rs -> put_all rs m !! key = m !! key.
Proof.
  revert m. induction rs as [| r rs IH]; intros m Hk; [reflexivity |].
  cbn [put_all fold_left]. cbn [map] in Hk.
  apply not_elem_of_cons in Hk as [Hne Hk].
  unfold put_all in IH. rewrite IH by exact Hk.
  apply lookup_insert_ne. congruence.
Qed.

Lemma import_records_keys (data : list (string * string)) now :
  map rec_key (map (fun '(key, value) => mkRecord key value (Some now)) data) = map fst data.
Proof. induction data as [| [key value] data IH]; cbn; [reflexivity | by rewrite IH]. Qed.

(** C10: [importAll(data)] merges: whatever its outcome, a key that is
    not among the keys of [data] keeps its stored record (value and
    timestamp). *)
Theorem importAll_frame (data : list (string * string)) s r s' key :
  importAll data s = (r, s') ->
  key ∉ map fst data ->
  storage s' !! key = storage s !! key.
Proof.
  intros H Hk. revert H.
  unfold importAll, bindM at 1, initialize.
  destruct (dbOpened s) as [| e]; [| intros H; inversion H; reflexivity].
  unfold table_bulkPut, try_catch, bindM, date_now.
  destruct (engine "bulkPut" s) as [[[] | e] s1] eqn:He; cbn; intros H; inversion H; subst.
  - cbn. rewrite put_all_lookup_notin by (rewrite import_records_keys; exact Hk).
    rewrite (engine_ok_storage _ _ _ He). reflexivity.
  - pose proof (engine_storage "bulkPut" s) as Hs. rewrite He in Hs. cbn in Hs.
    rewrite Hs. reflexivity.
Qed.

Lemma importAll_frame_witness :
  ("a" ∉ map fst [("b", "2"); ("c", "3")]) /\
  storage (snd (importAll [("b", "2"); ("c", "3")] store_a)) !! "a" =
    Some (mkRecord "a" "old" (Some 5)).
Proof.
  split; [vm_compute; intros H; inversion H as [| ? ? ? Hin]; subst;
          inversion Hin as [| ? ? ? Hin2]; subst; inversion Hin2 |].
  rewrite (importAll_frame [("b", "2"); ("c", "3")] store_a
             (fst (importAll [("b", "2"); ("c", "3")] store_a))
             (snd (importAll [("b", "2"); ("c", "3")] store_a)) "a").
  - reflexivity.
  - destruct (importAll _ _); reflexivity.
  - set_solver.
Defined.

(** ** Batch update: final state *)

Lemma stage_spec operations updates deletions s :
  stage operations updates deletions s =
  (Ok (updates ++ staged_updates (clock s) operations,
       deletions ++ staged_deletions operations), s).
Proof.
  revert updates deletions.
  induction operations as [| o rest IH]; intros updates deletions.
  - cbn. rewrite !app_nil_r. reflexivity.
  - cbn [stage staged_updates staged_deletions].
    destruct (op_operation o), (op_value o); unfold bindM, date_now; rewrite IH;
      rewrite <- ?app_assoc; reflexivity.
Qed.

Lemma delete_all_lookup (ks : list string) m key :
  delete_all ks m !! key =
  if existsb (fun k => bool_decide (k = key)) ks then None else m !! key.
Proof.
  revert m. induction ks as [| k ks IH]; intros m; [reflexivity |].
  cbn [delete_all fold_left existsb]. unfold delete_all in IH. rewrite IH.
  destruct (bool_decide_reflect (k = key)) as [-> | Hne].
  - rewrite lookup_delete_eq. cbn. destruct (existsb _ ks); reflexivity.
  - cbn. rewrite lookup_delete_ne by exact Hne. reflexivity.
Qed.

Lemma staged_deletions_removes operations key :
  existsb (fun k => bool_decide (k = key)) (staged_deletions operations) =
  removes_key operations key.
Proof.
  unfold removes_key. induction operations as [| o rest IH]; [reflexivity |].
  cbn. destruct (op_operation o); cbn; rewrite IH; reflexivity.
Qed.

Lemma put_all_staged_value now operations m key :
  option_map rec_value (put_all (staged_updates now operations) m !! key) =
  match last_set operations key with
  | Some v => Some v
  | None => option_map rec_value (m !! key)
  end.
Proof.
  revert m. induction operations as [| o rest IH]; intros m; [reflexivity |].
  cbn [staged_updates last_set].
  destruct (op_operation o), (op_value o) as [value |];
    try (rewrite IH; destruct (last_set rest key); reflexivity).
  cbn [put_all fold_left]. unfold put_all in IH. rewrite IH.
  destruct (last_set rest key); [reflexivity |].
  destruct (bool_decide_reflect (op_key o = key)) as [<- | Hne]; cbn.
  - rewrite lookup_insert_eq. reflexivity.
  - rewrite lookup_insert_ne by exact Hne. reflexivity.
Qed.

Lemma engine_cases prim s :
  (exists s', engine prim s = (Ok tt, s') /\ storage s' = storage s) \/
  (exists e s', engine prim s = (Throw e, s')).
Proof.
  destruct (engine prim s) as [[[] | e] s'] eqn:He.
  - left. exists s'. split; [reflexivity |]. exact (engine_ok_storage _ _ _ He).
  - right. exists e, s'. reflexivity.
Qed.

Lemma bulkPut_step (updates : list StorageRecord) s :
  (exists s', (if bool_decide (0 < length updates)%nat then table_bulkPut updates else retM tt) s
              = (Ok tt, s') /\ storage s' = put_all updates (storage s)) \/
  (exists e s', (if bool_decide (0 < length updates)%nat then table_bulkPut updates else retM tt) s
                = (Throw e, s')).
Proof.
  destruct (bool_decide _) eqn:Hl.
  - unfold table_bulkPut, bindM.
    destruct (engine_cases "bulkPut" s) as [[s' [E S]] | [e [s' E]]]; rewrite E.
    + left. eexists. split; [reflexivity |]. cbn. rewrite S. reflexivity.
    + right. eauto.
  - left. exists s. split; [reflexivity |].
    apply bool_decide_eq_false in Hl. destruct updates; [reflexivity | cbn in Hl; lia].
Qed.

Lemma bulkDelete_step (deletions : list string) s :
  (exists s', (if bool_decide (0 < length deletions)%nat then table_bulkDelete deletions else retM tt) s
              = (Ok tt, s') /\ storage s' = delete_all deletions (storage s)) \/
  (exists e s', (if bool_decide (0 < length deletions)%nat then table_bulkDelete deletions else retM tt) s
                = (Throw e, s')).
Proof.
  destruct (bool_decide _) eqn:Hl.
  - unfold table_bulkDelete, bindM.
    destruct (engine_cases "bulkDelete" s) as [[s' [E S]] | [e [s' E]]]; rewrite E.
    + left. eexists. split; [reflexivity |]. cbn. rewrite S. reflexivity.
    + right. eauto.
  - left. exists s. split; [reflexivity |].
    apply bool_decide_eq_false in Hl. destruct deletions; [reflexivity | cbn in Hl; lia].
Qed.

(** [batchUpdate] is all or nothing: either it succeeds and the store is
    the old one with every staged record put (in list order) and then every
    staged key deleted, or it rejects and the store is unchanged. *)
Lemma batchUpdate_effect operations s :
  (fst (batchUpdate operations s) = Ok tt /\
   storage (snd (batchUpdate operations s)) =
     delete_all (staged_deletions operations)
       (put_all (staged_updates (clock s) operations) (storage s))) \/
  (exists e, fst (batchUpdate operations s) = Throw e /\
             storage (snd (batchUpdate operations s)) = storage s).
Proof.
  unfold batchUpdate, initialize, try_catch, transaction, bindM.
  destruct (dbOpened s) as [| e]; [| right; exists e; split; reflexivity].
  rewrite stage_spec. cbn [app].
  change (clock (log_event EvTxBegin s)) with (clock s).
  destruct (bulkPut_step (staged_updates (clock s) operations) (log_event EvTxBegin s))
    as [[s1 [E1 S1]] | [e1 [s1 E1]]]; rewrite E1;
    [| right; eexists; split; reflexivity].
  destruct (bulkDelete_step (staged_deletions operations) s1)
    as [[s2 [E2 S2]] | [e2 [s2 E2]]]; rewrite E2;
    [| right; eexists; split; reflexivity].
  destruct (engine_cases "commit" s2) as [[s3 [E3 S3]] | [e3 [s3 E3]]]; rewrite E3;
    [| right; eexists; split; reflexivity].
  left. split; [reflexivity |]. cbn. rewrite S3, S2, S1. reflexivity.
Qed.

(** C4 (as stated, on a set after a remove): [batchUpdate] of
    [remove "a"] followed by [set "a" = "1"] succeeds and leaves ["a"]
    absent: the later ['set'] does not win over the earlier ['remove']. *)
Lemma batchUpdate_set_after_remove_counterexample :
  let operations := [mkOp "a" OpRemove None; mkOp "a" OpSet (Some "1")] in
  fst (batchUpdate operations (fresh [])) = Ok tt /\
  storage (snd (batchUpdate operations (fresh []))) !! "a" = None.
Proof. vm_compute. split; reflexivity. Qed.

(** C4 (amended): [batchUpdate] runs in one transaction, all or nothing:
    either it fails and the store is unchanged, or it succeeds and each key
    with a ['remove'] entry is absent whatever the order of the entries,
    while any other key holds the value of its last ['set'] entry in list
    order (or keeps its old value when it has none). *)
Theorem batchUpdate_removes_win operations s :
  (fst (batchUpdate operations s) = Ok tt /\
   forall key,
     option_map rec_value (storage (snd (batchUpdate operations s)) !! key) =
     if removes_key operations key then None
     else match last_set operations key with
          | Some v => Some v
          | None => option_map rec_value (storage s !! key)
          end) \/
  (exists e, fst (batchUpdate operations s) = Throw e /\
             storage (snd (batchUpdate operations s)) = storage s).
Proof.
  destruct (batchUpdate_effect operations s) as [[Hr Hs] | Hfail]; [left | right; exact Hfail].
  split; [exact Hr |]. intros key. rewrite Hs, delete_all_lookup, staged_deletions_removes.
  destruct (removes_key operations key); [reflexivity |].
  apply put_all_staged_value.
Qed.

(** ** Storage statistics *)

(** C5 (as stated, when the open failed): [getStorageInfo] rejects with the
    initialization error instead of returning the zero result. *)
Lemma getStorageInfo_init_failure_counterexample :
  fst (getStorageInfo (mkSt ∅ 0 [] [] (OpenFailed (mkErr "OpenFailedError" "blocked")))) =
  Throw (mkErr "OpenFailedError" "blocked").
Proof. reflexivity. Qed.

(** C5 (amended): [getStorageInfo] raises only the initialization error.
    When the open failed it rejects with that error; otherwise it always
    resolves, and when one of its three queries ([count], the last record
    by timestamp, [toArray]) fails it resolves to the zero result. *)
Theorem getStorageInfo_only_init_raises s :
  match dbOpened s with
  | OpenFailed e => fst (getStorageInfo s) = Throw e
  | Opened =>
      exists info, fst (getStorageInfo s) = Ok info /\
        (if existsb (fun f : option string => match f with Some _ => true | None => false end)
              (firstn 3 (faults s))
         then info = zeroInfo else True)
  end.
Proof.
  destruct s as [st c f tr [| e]]; [| reflexivity]. cbn [dbOpened faults].
  unfold getStorageInfo, table_count, table_lastByTimestamp, table_toArray,
    initialize, try_catch, bindM, engine, retM.
  destruct f as [| [f1 |] [| [f2 |] [| [f3 |] rest]]]; cbn;
    eexists; (split; [reflexivity | simpl; trivial]).
Qed.

(** C2 (the code with three same-key callers issued in one tick): both
    waiters of the first caller's promise wake when it settles and start
    their updates, so callers 1 and 2 run [_performAtomicUpdateWithRetry]
    on the same key at the same time. *)
Theorem keyLocks_two_running_same_key :
  exists st,
    KeyLocks.run KeyLocks.same_tick_schedule (KeyLocks.initial ["k"; "k"; "k"]) = Some st /\
    KeyLocks.callers st !! 1%nat = Some (KeyLocks.mkCaller "k" KeyLocks.Running) /\
    KeyLocks.callers st !! 2%nat = Some (KeyLocks.mkCaller "k" KeyLocks.Running) /\
    ~ KeyLocks.exclusive st.
Proof.
  eexists. split; [vm_compute; reflexivity |].
  split; [reflexivity |]. split; [reflexivity |].
  intros Hex. apply (Hex 1%nat 2%nat (KeyLocks.mkCaller "k" KeyLocks.Running)
                       (KeyLocks.mkCaller "k" KeyLocks.Running)); reflexivity || lia.
Qed.

(** ** Keeping a property of the table *)

Section Preserve.
Variable P : gmap string StorageRecord -> Prop.

Lemma preserves_ret {A} (a : A) : preserves P (retM a).
Proof. intros s H. exact H. Qed.

Lemma preserves_throw {A} e : preserves P (@throwM A e).
Proof. intros s H. exact H. Qed.

Lemma preserves_bind {A B} (c : M A) (k : A -> M B) :
  preserves P c -> (forall a, preserves P (k a)) -> preserves P (bindM c k).
Proof.
  intros Hc Hk s H. unfold bindM. specialize (Hc s H).
  destruct (c s) as [[a | e] s1]; [apply Hk |]; exact Hc.
Qed.

Lemma preserves_try_catch {A} (c : M A) (h : JSError -> M A) :
  preserves P c -> (forall e, preserves P (h e)) -> preserves P (try_catch c h).
Proof.
  intros Hc Hh s H. unfold try_catch. specialize (Hc s H).
  destruct (c s) as [[a | e] s1]; [| apply Hh]; exact Hc.
Qed.

Lemma preserves_engine prim : preserves P (engine prim).
Proof. intros s H. rewrite engine_storage. exact H. Qed.

Lemma preserves_read {A} (f : St -> A) : preserves P (fun s => (Ok (f s), s)).
Proof. intros s H. exact H. Qed.

Lemma preserves_sleep d : preserves P (sleep d).
Proof. intros s H. exact H. Qed.

Lemma preserves_initialize : preserves P initialize.
Proof. intros s H. unfold initialize. destruct (dbOpened s); exact H. Qed.

(** A transaction keeps the property when its body does: a rollback
    restores the table the scope started from. *)
Lemma preserves_transaction {A} (body : M A) :
  preserves P body -> preserves P (transaction body).
Proof.
  intros Hb s H. unfold transaction.
  specialize (Hb (log_event EvTxBegin s) H).
  destruct (body (log_event EvTxBegin s)) as [[a | e] s1]; cbn; [| exact H].
  pose proof (engine_storage "commit" s1) as Hs.
  destruct (engine "commit" s1) as [[u | e] s2]; cbn in *; [rewrite Hs |]; assumption.
Qed.

Lemma preserves_decode {T} (codec : Codec T) r : preserves P (decode codec r).
Proof.
  intros s H. unfold decode. destruct r as [r |]; [| exact H].
  destruct (bool_decide _); [exact H |]. destruct (parse codec _); exact H.
Qed.

End Preserve.

Create HintDb preserve.
#[export] Hint Resolve preserves_ret preserves_throw preserves_bind preserves_try_catch
  preserves_engine preserves_read preserves_sleep preserves_initialize
  preserves_transaction preserves_decode : preserve.

(** Writes keep [keys_consistent]: a record is put under its own key. *)
Lemma kc_put r : preserves keys_consistent (table_put r).
Proof.
  unfold table_put. apply preserves_bind; [apply preserves_engine |].
  intros [] s H. cbn. apply map_Forall_insert_2; [reflexivity | exact H].
Qed.

Lemma kc_put_all rs m : keys_consistent m -> keys_consistent (put_all rs m).
Proof.
  revert m. induction rs as [| r rs IH]; intros m H; [exact H |].
  apply IH. apply map_Forall_insert_2; [reflexivity | exact H].
Qed.

Lemma kc_delete_all ks m : keys_consistent m -> keys_consistent (delete_all ks m).
Proof.
  revert m. induction ks as [| k ks IH]; intros m H; [exact H |].
  apply IH. apply map_Forall_delete. exact H.
Qed.

Lemma kc_bulkPut rs : preserves keys_consistent (table_bulkPut rs).
Proof.
  unfold table_bulkPut. apply preserves_bind; [apply preserves_engine |].
  intros [] s H. apply kc_put_all. exact H.
Qed.

Lemma kc_bulkDelete ks : preserves keys_consistent (table_bulkDelete ks).
Proof.
  unfold table_bulkDelete. apply preserves_bind; [apply preserves_engine |].
  intros [] s H. apply kc_delete_all. exact H.
Qed.

Lemma kc_delete k : preserves keys_consistent (table_delete k).
Proof.
  unfold table_delete. apply preserves_bind; [apply preserves_engine |].
  intros [] s H. apply map_Forall_delete. exact H.
Qed.

Lemma kc_clear : preserves keys_consistent table_clear.
Proof.
  unfold table_clear. apply preserves_bind; [apply preserves_engine |].
  intros [] s H. apply map_Forall_empty.
Qed.

#[export] Hint Resolve kc_put kc_bulkPut kc_bulkDelete kc_delete kc_clear : preserve.

Ltac solve_preserves :=
  repeat match goal with
  | |- preserves _ (bindM _ _) => apply preserves_bind; [| intros ?]
  | |- preserves _ (try_catch _ _) => apply preserves_try_catch; [| intros ?]
  | |- preserves _ (transaction _) => apply preserves_transaction
  | |- preserves _ (if ?b then _ else _) => destruct b
  | |- preserves _ (match ?x with _ => _ end) => destruct x
  | |- preserves _ (fun s => (Ok _, s)) => apply preserves_read
  | |- preserves _ (table_get _) => unfold table_get
  | |- preserves _ table_count => unfold table_count
  | |- preserves _ table_toArray => unfold table_toArray
  | |- preserves _ table_lastByTimestamp => unfold table_lastByTimestamp
  | |- preserves _ date_now => apply preserves_read
  | _ => solve [eauto with preserve]
  end.

Lemma preserves_stage P operations updates deletions :
  preserves P (stage operations updates deletions).
Proof.
  revert updates deletions.
  induction operations as [| o rest IH]; intros updates deletions; cbn [stage];
    solve_preserves.
Qed.

Lemma kc_performSimpleUpdate {T} (codec : Codec T) key updateFn :
  preserves keys_consistent (_performSimpleUpdate codec key updateFn).
Proof. unfold _performSimpleUpdate. solve_preserves. Qed.

Lemma kc_performAtomicUpdate {T} (codec : Codec T) key updateFn :
  preserves keys_consistent (_performAtomicUpdate codec key updateFn).
Proof. unfold _performAtomicUpdate. solve_preserves. Qed.

Lemma kc_retry_loop {T} (codec : Codec T) fuel attempt maxRetries lastError key updateFn :
  preserves keys_consistent (retry_loop codec fuel attempt maxRetries lastError key updateFn).
Proof.
  revert attempt lastError.
  induction fuel as [| fuel IH]; intros attempt lastError; cbn [retry_loop];
    [solve_preserves |].
  apply preserves_try_catch.
  - apply preserves_bind; [apply kc_performAtomicUpdate | intros; apply preserves_ret].
  - intros e. destruct (_ && _); [apply preserves_bind; [apply preserves_sleep | intros; apply IH] |].
    destruct (Nat.eqb _ _); [| apply IH].
    apply preserves_try_catch; [| intros; apply preserves_throw].
    apply preserves_bind; [apply kc_performSimpleUpdate | intros; apply preserves_ret].
Qed.


(** X2: the read operations [getItem], [getStorageInfo] and [exportAll]
    never change the table, whatever the engine does. *)
Theorem reads_leave_table key s :
  storage (snd (getItem key s)) = storage s /\
  storage (snd (getStorageInfo s)) = storage s /\
  storage (snd (exportAll s)) = storage s.
Proof.
  set (P := fun m : gmap string StorageRecord => m = storage s).
  assert (H1 : preserves P (getItem key)) by (unfold getItem; solve_preserves).
  assert (H2 : preserves P getStorageInfo) by (unfold getStorageInfo; solve_preserves).
  assert (H3 : preserves P exportAll) by (unfold exportAll; solve_preserves).
  split; [| split]; [apply H1 | apply H2 | apply H3]; reflexivity.
Qed.

(** ** Traces without delays *)

Lemma never_sleeps_ret {A} (a : A) : never_sleeps (retM a).
Proof. intros s. exists []. rewrite app_nil_r. auto. Qed.

Lemma never_sleeps_throw {A} e : never_sleeps (@throwM A e).
Proof. intros s. exists []. rewrite app_nil_r. auto. Qed.

Lemma never_sleeps_read {A} (f : St -> A) : never_sleeps (fun s => (Ok (f s), s)).
Proof. intros s. exists []. rewrite app_nil_r. auto. Qed.

Lemma never_sleeps_bind {A B} (c : M A) (k : A -> M B) :
  never_sleeps c -> (forall a, never_sleeps (k a)) -> never_sleeps (bindM c k).
Proof.
  intros Hc Hk s. unfold bindM. destruct (Hc s) as [tr1 [E1 F1]].
  destruct (c s) as [[a | e] s1]; cbn in E1; [| eauto].
  destruct (Hk a s1) as [tr2 [E2 F2]]. exists (tr1 ++ tr2).
  rewrite E2, E1, app_assoc. split; [reflexivity | apply Forall_app; auto].
Qed.

Lemma never_sleeps_try_catch {A} (c : M A) (h : JSError -> M A) :
  never_sleeps c -> (forall e, never_sleeps (h e)) -> never_sleeps (try_catch c h).
Proof.
  intros Hc Hh s. unfold try_catch. destruct (Hc s) as [tr1 [E1 F1]].
  destruct (c s) as [[a | e] s1]; cbn in E1; [eauto |].
  destruct (Hh e s1) as [tr2 [E2 F2]]. exists (tr1 ++ tr2).
  rewrite E2, E1, app_assoc. split; [reflexivity | apply Forall_app; auto].
Qed.

Lemma engine_trace prim s : trace (snd (engine prim s)) = trace s ++ [EvCall prim].
Proof. unfold engine. cbn. destruct (faults s) as [| [nm |] rest]; reflexivity. Qed.

Lemma never_sleeps_engine prim : never_sleeps (engine prim).
Proof. intros s. exists [EvCall prim]. rewrite engine_trace. repeat constructor. Qed.

Lemma never_sleeps_initialize : never_sleeps initialize.
Proof. intros s. exists []. unfold initialize. rewrite app_nil_r. destruct (dbOpened s); auto. Qed.

Lemma never_sleeps_transaction {A} (body : M A) :
  never_sleeps body -> never_sleeps (transaction body).
Proof.
  intros Hb s. unfold transaction.
  destruct (Hb (log_event EvTxBegin s)) as [tr1 [E1 F1]].
  destruct (body (log_event EvTxBegin s)) as [[a | e] s1]; cbn in E1.
  - pose proof (engine_trace "commit" s1) as Et.
    destruct (engine "commit" s1) as [[u | e] s2]; cbn in Et |- *.
    + exists ((EvTxBegin :: tr1) ++ [EvCall "commit"; EvTxCommit]).
      rewrite Et, E1, <- !app_assoc. split; [reflexivity |].
      repeat constructor; auto. apply Forall_app; split; [exact F1 | repeat constructor].
    + exists ((EvTxBegin :: tr1) ++ [EvCall "commit"; EvTxAbort]).
      rewrite Et, E1, <- !app_assoc. split; [reflexivity |].
      repeat constructor; auto. apply Forall_app; split; [exact F1 | repeat constructor].
  - exists ((EvTxBegin :: tr1) ++ [EvTxAbort]). cbn. rewrite E1, <- !app_assoc.
    split; [reflexivity |]. repeat constructor. apply Forall_app; split; [exact F1 | repeat constructor].
Qed.

Lemma never_sleeps_decode {T} (codec : Codec T) r : never_sleeps (decode codec r).
Proof.
  unfold decode. destruct r as [r |]; [| apply never_sleeps_ret].
  destruct (bool_decide _); [apply never_sleeps_ret |].
  destruct (parse codec _); [apply never_sleeps_ret | apply never_sleeps_throw].
Qed.

Create HintDb nosleep.
#[export] Hint Resolve never_sleeps_ret never_sleeps_throw never_sleeps_read
  never_sleeps_bind never_sleeps_try_catch never_sleeps_engine never_sleeps_initialize
  never_sleeps_transaction never_sleeps_decode : nosleep.

Ltac solve_never_sleeps :=
  repeat match goal with
  | |- never_sleeps (bindM _ _) => apply never_sleeps_bind; [| intros ?]
  | |- never_sleeps (try_catch _ _) => apply never_sleeps_try_catch; [| intros ?]
  | |- never_sleeps (transaction _) => apply never_sleeps_transaction
  | |- never_sleeps (table_get _) => unfold table_get
  | |- never_sleeps (table_put _) => unfold table_put
  | |- never_sleeps date_now => apply never_sleeps_read
  | |- never_sleeps (fun s => (Ok _, s)) => apply never_sleeps_read
  | |- never_sleeps (fun s => (Ok _, set_storage _ s)) =>
      intros ?; eexists []; rewrite app_nil_r; split; [reflexivity | constructor]
  | _ => solve [eauto with nosleep]
  end.

Lemma never_sleeps_performAtomicUpdate {T} (codec : Codec T) key updateFn :
  never_sleeps (_performAtomicUpdate codec key updateFn).
Proof. unfold _performAtomicUpdate. solve_never_sleeps. destruct (is_premature_commit _); solve_never_sleeps. Qed.

Lemma never_sleeps_performSimpleUpdate {T} (codec : Codec T) key updateFn :
  never_sleeps (_performSimpleUpdate codec key updateFn).
Proof. unfold _performSimpleUpdate. solve_never_sleeps. Qed.

Lemma retry_loop_never_sleeps {T} (codec : Codec T) fuel attempt maxRetries lastError key updateFn :
  never_sleeps (retry_loop codec fuel attempt maxRetries lastError key updateFn).
Proof.
  revert attempt lastError.
  induction fuel as [| fuel IH]; intros attempt lastError; cbn [retry_loop];
    [apply never_sleeps_throw |].
  intros s. unfold try_catch at 1.
  destruct (never_sleeps_bind _ _ (never_sleeps_performAtomicUpdate codec key updateFn)
              (fun _ => never_sleeps_ret tt) s) as [tr1 [E1 F1]].
  destruct (bindM (_performAtomicUpdate codec key updateFn) (fun _ => retM tt) s)
    as [[u | e] s1] eqn:Hb; cbn in E1; [eauto |].
  assert (Hnp : is_premature_commit e = false).
  { unfold bindM in Hb.
    destruct (_performAtomicUpdate codec key updateFn s) as [[a | e0] s0] eqn:Hp;
      [discriminate | injection Hb as <- <-].
    exact (_performAtomicUpdate_not_premature _ _ _ _ _ _ Hp). }
  rewrite Hnp. cbn [andb].
  assert (Hk : never_sleeps
                 (if Nat.eqb attempt maxRetries
                  then try_catch (_performSimpleUpdate codec key updateFn;; retM tt)
                         (fun _ => throwM e)
                  else retry_loop codec fuel (S attempt) maxRetries (Some e) key updateFn)).
  { destruct (Nat.eqb _ _); [| apply IH].
    apply never_sleeps_try_catch; [| intros; apply never_sleeps_throw].
    apply never_sleeps_bind; [apply never_sleeps_performSimpleUpdate | intros; apply never_sleeps_ret]. }
  destruct (Hk s1) as [tr2 [E2 F2]]. exists (tr1 ++ tr2).
  rewrite E2, E1, app_assoc. split; [reflexivity | apply Forall_app; auto].
Qed.

(** X3: [atomicUpdate] never waits: whatever the engine answers (commit
    conflicts included), the events it appends to the trace contain no
    [setTimeout] delay; the backoff branch of the retry loop is unreachable
    because [_performAtomicUpdate] rethrows every failure as a plain
    [Error]. *)
Theorem atomicUpdate_never_sleeps {T} (codec : Codec T) key updateFn :
  never_sleeps (atomicUpdate codec key updateFn).
Proof.
  unfold atomicUpdate, _performAtomicUpdateWithRetry.
  apply never_sleeps_bind; [apply never_sleeps_initialize | intros; apply retry_loop_never_sleeps].
Qed.

(** ** Atomic update on a reliable engine *)

Lemma decode_spec {T} (codec : Codec T) r s : decode codec r s = (decode_value codec r, s).
Proof.
  unfold decode, decode_value. destruct r as [r |]; [| reflexivity].
  destruct (bool_decide _); [reflexivity |]. destruct (parse codec _); reflexivity.
Qed.

Lemma retry_step_ok {T} (codec : Codec T) fuel attempt maxRetries lastError key updateFn s s1 :
  _performAtomicUpdate codec key updateFn s = (Ok tt, s1) ->
  retry_loop codec (S fuel) attempt maxRetries lastError key updateFn s = (Ok tt, s1).
Proof. intros H. cbn [retry_loop]. unfold try_catch at 1, bindM at 1. rewrite H. reflexivity. Qed.

Lemma perform_reliable {T} (codec : Codec T) key updateFn s v :
  faults s = [] ->
  decode_value codec (storage s !! key) = Ok v ->
  exists s', _performAtomicUpdate codec key updateFn s = (Ok tt, s') /\
    storage s' = <[key := mkRecord key (stringify codec (updateFn v)) (Some (clock s))]> (storage s) /\
    faults s' = [] /\ clock s' = clock s /\ dbOpened s' = dbOpened s.
Proof.
  destruct s as [st c f tr o]; cbn; intros -> Hd.
  unfold _performAtomicUpdate, transaction, try_catch, bindM, table_get, table_put, date_now, engine.
  cbn. rewrite decode_spec. cbn. rewrite Hd.
  cbn. eexists. split; [reflexivity |]. cbn. repeat split.
Qed.

Lemma perform_corrupt {T} (codec : Codec T) key updateFn s e :
  faults s = [] ->
  decode_value codec (storage s !! key) = Throw e ->
  exists s', _performAtomicUpdate codec key updateFn s =
               (Throw (newError ("Failed to perform atomic update: " +:+ key)), s') /\
    storage s' = storage s /\ faults s' = [] /\ dbOpened s' = dbOpened s.
Proof.
  destruct s as [st c f tr o]; cbn; intros -> Hd.
  unfold _performAtomicUpdate, transaction, try_catch, bindM, table_get, table_put, date_now, engine.
  cbn. rewrite decode_spec. cbn. rewrite Hd. cbn.
  unfold decode_value in Hd. destruct (st !! key) as [r |]; [| discriminate].
  destruct (bool_decide _); [discriminate |]. destruct (parse codec _); [discriminate |].
  injection Hd as <-. cbn.
  eexists. split; [reflexivity |]. repeat split.
Qed.

Lemma simple_corrupt {T} (codec : Codec T) key updateFn s e :
  faults s = [] ->
  decode_value codec (storage s !! key) = Throw e ->
  exists s', _performSimpleUpdate codec key updateFn s =
               (Throw (newError ("Failed to perform simple update: " +:+ key)), s') /\
    storage s' = storage s.
Proof.
  destruct s as [st c f tr o]; cbn; intros -> Hd.
  unfold _performSimpleUpdate, try_catch, bindM, table_get, engine.
  cbn. rewrite decode_spec. cbn. rewrite Hd. cbn.
  eexists. split; reflexivity.
Qed.

Lemma atomicUpdate_reliable_run {T} (codec : Codec T) key updateFn s v :
  dbOpened s = Opened ->
  faults s = [] ->
  decode_value codec (storage s !! key) = Ok v ->
  fst (atomicUpdate codec key updateFn s) = Ok tt /\
  storage (snd (atomicUpdate codec key updateFn s)) =
    <[key := mkRecord key (stringify codec (updateFn v)) (Some (clock s))]> (storage s) /\
  faults (snd (atomicUpdate codec key updateFn s)) = [] /\
  dbOpened (snd (atomicUpdate codec key updateFn s)) = Opened.
Proof.
  intros Ho Hf Hd.
  destruct (perform_reliable codec key updateFn s v Hf Hd) as [s' [E [Hs [Hf' [_ Ho']]]]].
  assert (A : atomicUpdate codec key updateFn s = (Ok tt, s')).
  { unfold atomicUpdate, bindM at 1, initialize. rewrite Ho. cbv beta iota.
    unfold _performAtomicUpdateWithRetry. apply retry_step_ok. exact E. }
  rewrite A. cbn. repeat split; congruence.
Qed.


(** X5: on an opened store whose engine does not fail, if the stored value
    of [key] cannot be parsed, every transactional attempt and the simple
    update fail: [atomicUpdate] rejects with
    ["Failed to perform atomic update: " + key] and the table is unchanged. *)
Theorem atomicUpdate_corrupt_value {T} (codec : Codec T) key updateFn s e :
  dbOpened s = Opened ->
  faults s = [] ->
  decode_value codec (storage s !! key) = Throw e ->
  fst (atomicUpdate codec key updateFn s) =
    Throw (newError ("Failed to perform atomic update: " +:+ key)) /\
  storage (snd (atomicUpdate codec key updateFn s)) = storage s.
Proof.
  intros Ho Hf Hd.
  destruct (perform_corrupt codec key updateFn s e Hf Hd) as [s1 [E1 [S1 [F1 _]]]].
  rewrite <- S1 in Hd.
  destruct (perform_corrupt codec key updateFn s1 e F1 Hd) as [s2 [E2 [S2 [F2 _]]]].
  rewrite <- S2 in Hd.
  destruct (perform_corrupt codec key updateFn s2 e F2 Hd) as [s3 [E3 [S3 [F3 _]]]].
  rewrite <- S3 in Hd.
  destruct (simple_corrupt codec key updateFn s3 e F3 Hd) as [s4 [E4 S4]].
  assert (A : atomicUpdate codec key updateFn s =
              (Throw (newError ("Failed to perform atomic update: " +:+ key)), s4)).
  { unfold atomicUpdate, bindM at 1, initialize. rewrite Ho. cbv beta iota.
    unfold _performAtomicUpdateWithRetry.
    erewrite retry_step_fail by exact E1. cbn [Nat.eqb].
    erewrite retry_step_fail by exact E2. cbn [Nat.eqb].
    erewrite retry_step_fail by exact E3. cbn [Nat.eqb].
    unfold try_catch, bindM at 1. rewrite E4. reflexivity. }
  rewrite A. cbn. split; [reflexivity | congruence].
Qed.

(** X6: two [atomicUpdate]s of one key in sequence on an opened store whose
    engine does not fail compose: the second transformation sees the value
    the first one wrote, so the key ends with
    [stringify(f2(f1(current)))], provided the first written text parses
    back to the first result and is not empty (an empty text would be read
    as [null]). *)
Theorem atomicUpdate_compose {T} (codec : Codec T) key f1 f2 s v :
  dbOpened s = Opened ->
  faults s = [] ->
  decode_value codec (storage s !! key) = Ok v ->
  parse codec (stringify codec (f1 v)) = Some (f1 v) ->
  stringify codec (f1 v) <> "" ->
  fst (atomicUpdate codec key f2 (snd (atomicUpdate codec key f1 s))) = Ok tt /\
  option_map rec_value
    (storage (snd (atomicUpdate codec key f2 (snd (atomicUpdate codec key f1 s)))) !! key) =
  Some (stringify codec (f2 (Some (f1 v)))).
Proof.
  intros Ho Hf Hd Hp Hne.
  destruct (atomicUpdate_reliable_run codec key f1 s v Ho Hf Hd) as [_ [S1 [F1 O1]]].
  assert (Hd1 : decode_value codec (storage (snd (atomicUpdate codec key f1 s)) !! key)
                = Ok (Some (f1 v))).
  { rewrite S1, lookup_insert_eq. cbn.
    rewrite bool_decide_eq_false_2 by exact Hne. rewrite Hp. reflexivity. }
  destruct (atomicUpdate_reliable_run codec key f2 _ _ O1 F1 Hd1) as [R2 [S2 _]].
  split; [exact R2 |]. rewrite S2, lookup_insert_eq. reflexivity.
Qed.


Lemma atomicUpdate_corrupt_value_witness :
  fst (atomicUpdate nat_codec "counter" increment store_corrupt) =
    Throw (newError ("Failed to perform atomic update: " +:+ "counter")) /\
  storage (snd (atomicUpdate nat_codec "counter" increment store_corrupt)) = storage store_corrupt.
Proof. apply (atomicUpdate_corrupt_value nat_codec "counter" increment store_corrupt syntaxError); reflexivity. Defined.

Lemma atomicUpdate_compose_witness :
  fst (atomicUpdate nat_codec "counter" increment
         (snd (atomicUpdate nat_codec "counter" increment (fresh [])))) = Ok tt /\
  option_map rec_value
    (storage (snd (atomicUpdate nat_codec "counter" increment
                     (snd (atomicUpdate nat_codec "counter" increment (fresh []))))) !! "counter") =
  Some "2".
Proof.
  apply (atomicUpdate_compose nat_codec "counter" increment increment (fresh []) None);
    [reflexivity | reflexivity | reflexivity | vm_compute; reflexivity | vm_compute; discriminate].
Defined.


(** ** The lock table keeps no stale entry *)

Lemma set_pc_lookup i pc st j :
  KeyLocks.callers (KeyLocks.set_pc i pc st) !! j =
  if decide (i = j) then (fun c => KeyLocks.mkCaller (KeyLocks.c_key c) pc) <$> KeyLocks.callers st !! i
  else KeyLocks.callers st !! j.
Proof.
  unfold KeyLocks.set_pc. cbn. destruct (decide (i = j)) as [<- | Hne].
  - destruct (KeyLocks.callers st !! i) as [c |] eqn:Hc.
    + rewrite list_lookup_insert_eq by (eapply lookup_lt_Some; exact Hc). reflexivity.
    + rewrite list_insert_ge; [exact Hc |]. apply lookup_ge_None in Hc. exact Hc.
  - apply list_lookup_insert_ne. exact Hne.
Qed.

Lemma set_pc_keyLocks i pc st :
  KeyLocks.keyLocks (KeyLocks.set_pc i pc st) = KeyLocks.keyLocks st.
Proof. reflexivity. Qed.

Lemma set_pc_at st i key pc pc' :
  KeyLocks.callers st !! i = Some (KeyLocks.mkCaller key pc) ->
  KeyLocks.callers (KeyLocks.set_pc i pc' st) !! i = Some (KeyLocks.mkCaller key pc').
Proof.
  intros Hi. rewrite set_pc_lookup, decide_True by reflexivity. rewrite Hi. reflexivity.
Qed.

Lemma set_pc_other st i j pc :
  i <> j -> KeyLocks.callers (KeyLocks.set_pc i pc st) !! j = KeyLocks.callers st !! j.
Proof. intros Hne. rewrite set_pc_lookup, decide_False by exact Hne. reflexivity. Qed.

(** A caller that is not in flight holds no entry of the lock table. *)
Lemma lock_inv_not_holder st i key pc lk :
  KeyLocks.lock_inv st -> KeyLocks.callers st !! i = Some (KeyLocks.mkCaller key pc) ->
  pc <> KeyLocks.Running -> (forall ok, pc <> KeyLocks.Settled ok) ->
  KeyLocks.keyLocks st !! lk <> Some i.
Proof.
  intros Hinv Hi Hr Hs Hlk. destruct (Hinv lk i Hlk) as (k & p & Hc & _ & Hp).
  rewrite Hi in Hc. injection Hc as <- <-. destruct Hp as [Hp | [ok Hp]]; [exact (Hr Hp) | exact (Hs ok Hp)].
Qed.

Lemma lock_inv_set_pc st i key pc pc' :
  KeyLocks.lock_inv st -> KeyLocks.callers st !! i = Some (KeyLocks.mkCaller key pc) ->
  (forall lk, KeyLocks.keyLocks st !! lk = Some i ->
     pc' = KeyLocks.Running \/ exists ok, pc' = KeyLocks.Settled ok) ->
  KeyLocks.lock_inv (KeyLocks.set_pc i pc' st).
Proof.
  intros Hinv Hi Hgood lk j Hj. rewrite set_pc_keyLocks in Hj.
  destruct (Hinv lk j Hj) as (k & p & Hc & Hlk & Hp).
  destruct (decide (i = j)) as [<- | Hne].
  - rewrite Hi in Hc. injection Hc as <- <-. exists key, pc'.
    split; [exact (set_pc_at st i key pc pc' Hi) |]. split; [exact Hlk | exact (Hgood lk Hj)].
  - exists k, p. rewrite set_pc_other by exact Hne. auto.
Qed.

Lemma lock_inv_start st i key pc :
  KeyLocks.lock_inv st -> KeyLocks.callers st !! i = Some (KeyLocks.mkCaller key pc) ->
  KeyLocks.lock_inv (KeyLocks.start i key st).
Proof.
  intros Hinv Hi.
  assert (Hinv1 : KeyLocks.lock_inv (KeyLocks.set_pc i KeyLocks.Running st))
    by (eapply lock_inv_set_pc; [exact Hinv | exact Hi | intros; left; reflexivity]).
  intros lk j Hj. unfold KeyLocks.start in Hj. cbn [KeyLocks.keyLocks] in Hj.
  destruct (decide (lk = KeyLocks.lockKey key)) as [-> | Hne].
  - rewrite lookup_insert_eq in Hj. injection Hj as <-. exists key, KeyLocks.Running.
    split; [exact (set_pc_at st i key pc KeyLocks.Running Hi) |]. auto.
  - rewrite lookup_insert_ne in Hj by congruence. exact (Hinv1 lk j Hj).
Qed.

Lemma lock_inv_step a st st' :
  KeyLocks.lock_inv st -> KeyLocks.step a st = Some st' -> KeyLocks.lock_inv st'.
Proof.
  intros Hinv Hs. destruct a as [i | i ok | i]; cbn in Hs.
  - destruct (KeyLocks.callers st !! i) as [[key pc] |] eqn:Hi; [| discriminate].
    destruct pc as [| holder | | ok | ok]; try discriminate.
    + destruct (KeyLocks.keyLocks st !! KeyLocks.lockKey key) as [holder |];
        injection Hs as <-.
      * eapply lock_inv_set_pc; [exact Hinv | exact Hi |]. intros lk Hlk. exfalso.
        exact (lock_inv_not_holder st i key _ lk Hinv Hi ltac:(discriminate)
                 ltac:(discriminate) Hlk).
      * exact (lock_inv_start st i key _ Hinv Hi).
    + destruct (KeyLocks.callers st !! holder) as [h |]; [| discriminate].
      destruct (KeyLocks.settled_outcome (KeyLocks.c_pc h)) as [[|] |]; try discriminate;
        injection Hs as <-.
      * exact (lock_inv_start st i key _ Hinv Hi).
      * eapply lock_inv_set_pc; [exact Hinv | exact Hi |]. intros lk Hlk. exfalso.
        exact (lock_inv_not_holder st i key _ lk Hinv Hi ltac:(discriminate)
                 ltac:(discriminate) Hlk).
  - destruct (KeyLocks.callers st !! i) as [[key pc] |] eqn:Hi; [| discriminate].
    destruct pc; try discriminate. injection Hs as <-.
    eapply lock_inv_set_pc; [exact Hinv | exact Hi |]. intros; right; eauto.
  - destruct (KeyLocks.callers st !! i) as [[key pc] |] eqn:Hi; [| discriminate].
    destruct pc as [| | | ok |]; try discriminate. injection Hs as <-.
    intros lk j Hj. cbn [KeyLocks.keyLocks] in Hj.
    destruct (decide (lk = KeyLocks.lockKey key)) as [-> | Hne];
      [rewrite lookup_delete_eq in Hj; discriminate |].
    rewrite lookup_delete_ne in Hj by congruence.
    destruct (Hinv lk j Hj) as (k & p & Hc & Hlk & Hp). cbn [KeyLocks.callers].
    destruct (decide (i = j)) as [<- | Hij].
    + rewrite Hi in Hc. injection Hc as <- <-. exfalso. exact (Hne Hlk).
    + exists k, p. rewrite list_lookup_insert_ne by exact Hij. auto.
Qed.

Lemma lock_inv_run sched st st' :
  KeyLocks.lock_inv st -> KeyLocks.run sched st = Some st' -> KeyLocks.lock_inv st'.
Proof.
  revert st. induction sched as [| a rest IH]; intros st Hinv Hr; cbn in Hr.
  - injection Hr as <-. exact Hinv.
  - destruct (KeyLocks.step a st) as [st1 |] eqn:Hs; [| discriminate].
    exact (IH st1 (lock_inv_step a st st1 Hinv Hs) Hr).
Qed.

Lemma lock_inv_initial keys : KeyLocks.lock_inv (KeyLocks.initial keys).
Proof. intros lk i Hlk. cbn in Hlk. rewrite lookup_empty in Hlk. discriminate. Qed.

Lemma keys_insert (l : list KeyLocks.Caller) i pc :
  KeyLocks.c_key <$> <[i := KeyLocks.mkCaller (default "" (KeyLocks.c_key <$> l !! i)) pc]> l =
  KeyLocks.c_key <$> l.
Proof.
  rewrite list_fmap_insert. cbn. destruct (l !! i) as [c |] eqn:E; cbn.
  - apply list_insert_id. rewrite list_lookup_fmap, E. reflexivity.
  - apply list_insert_ge. rewrite length_fmap. apply lookup_ge_None. exact E.
Qed.

Lemma keys_insert_at (l : list KeyLocks.Caller) i key pc0 pc :
  l !! i = Some (KeyLocks.mkCaller key pc0) ->
  KeyLocks.c_key <$> <[i := KeyLocks.mkCaller key pc]> l = KeyLocks.c_key <$> l.
Proof.
  intros Hi. rewrite list_fmap_insert. apply list_insert_id.
  rewrite list_lookup_fmap, Hi. reflexivity.
Qed.

(** No step changes which key a caller updates. *)
Lemma step_keys a st st' :
  KeyLocks.step a st = Some st' ->
  KeyLocks.c_key <$> KeyLocks.callers st' = KeyLocks.c_key <$> KeyLocks.callers st.
Proof.
  intros Hs. destruct a as [i | i ok | i]; cbn in Hs;
    destruct (KeyLocks.callers st !! i) as [[key pc] |] eqn:Hi; try discriminate;
    destruct pc; try discriminate;
    repeat match type of Hs with
           | context [match ?x with _ => _ end] => destruct x; try discriminate
           end;
    injection Hs as <-; cbn; first [apply keys_insert | eapply keys_insert_at; exact Hi].
Qed.

Lemma run_keys sched st st' :
  KeyLocks.run sched st = Some st' ->
  KeyLocks.c_key <$> KeyLocks.callers st' = KeyLocks.c_key <$> KeyLocks.callers st.
Proof.
  revert st. induction sched as [| a rest IH]; intros st Hr; cbn in Hr.
  - injection Hr as <-. reflexivity.
  - destruct (KeyLocks.step a st) as [st1 |] eqn:Hs; [| discriminate].
    rewrite (IH st1 Hr). exact (step_keys a st st1 Hs).
Qed.

Lemma initial_keys keys :
  KeyLocks.c_key <$> KeyLocks.callers (KeyLocks.initial keys) = keys.
Proof. induction keys as [| k ks IH]; cbn; [reflexivity | rewrite <- IH at 2; reflexivity]. Qed.

Lemma lockKey_inj k1 k2 : KeyLocks.lockKey k1 = KeyLocks.lockKey k2 -> k1 = k2.
Proof. unfold KeyLocks.lockKey. cbn. intros H. injection H as H. exact H. Qed.

(** X7: in every interleaving of [atomicUpdate] callers, each entry of
    [keyLocks] names a caller of that key whose update is in flight or
    whose [finally] has not yet run; once every caller has returned or
    rejected, the lock table is empty. *)
Theorem keyLocks_no_leak keys sched st :
  KeyLocks.run sched (KeyLocks.initial keys) = Some st ->
  KeyLocks.lock_inv st /\ (KeyLocks.all_done st -> KeyLocks.keyLocks st = ∅).
Proof.
  intros Hr. pose proof (lock_inv_run sched _ st (lock_inv_initial keys) Hr) as Hinv.
  split; [exact Hinv |]. intros Hdone. apply map_empty. intros lk.
  destruct (KeyLocks.keyLocks st !! lk) as [i |] eqn:E; [| reflexivity]. exfalso.
  destruct (Hinv lk i E) as (k & p & Hc & _ & Hp).
  destruct (Hdone i _ Hc) as [ok Hok]. cbn in Hok. subst p.
  destruct Hp as [Hp | [ok' Hp]]; discriminate.
Qed.

Lemma keyLocks_no_leak_witness :
  exists st,
    KeyLocks.run (KeyLocks.same_tick_schedule ++
                  [KeyLocks.Complete 1 true; KeyLocks.Complete 2 true;
                   KeyLocks.Release 1; KeyLocks.Release 2])
      (KeyLocks.initial ["k"; "k"; "k"]) = Some st /\
    KeyLocks.lock_inv st /\ (KeyLocks.all_done st -> KeyLocks.keyLocks st = ∅).
Proof.
  eexists. split; [reflexivity |].
  apply (keyLocks_no_leak ["k"; "k"; "k"]
           (KeyLocks.same_tick_schedule ++
            [KeyLocks.Complete 1 true; KeyLocks.Complete 2 true;
             KeyLocks.Release 1; KeyLocks.Release 2])).
  reflexivity.
Defined.

(** X8: callers of [atomicUpdate] on pairwise distinct keys never wait for
    one another: whenever a caller resumes from [await this.initialize()],
    its [lockKey] is free and it starts its update at once. *)
Theorem distinct_keys_never_wait keys sched st i key :
  NoDup keys ->
  KeyLocks.run sched (KeyLocks.initial keys) = Some st ->
  KeyLocks.callers st !! i = Some (KeyLocks.mkCaller key KeyLocks.AwaitInit) ->
  KeyLocks.step (KeyLocks.Resume i) st = Some (KeyLocks.start i key st).
Proof.
  intros Hnd Hr Hi. cbn. rewrite Hi.
  destruct (KeyLocks.keyLocks st !! KeyLocks.lockKey key) as [j |] eqn:E; [| reflexivity].
  exfalso. pose proof (lock_inv_run sched _ st (lock_inv_initial keys) Hr) as Hinv.
  destruct (Hinv _ j E) as (k & p & Hc & Hlk & Hp). apply lockKey_inj in Hlk. subst k.
  pose proof (run_keys sched _ st Hr) as Hkeys. rewrite initial_keys in Hkeys.
  assert (Ki : keys !! i = Some key) by (rewrite <- Hkeys, list_lookup_fmap, Hi; reflexivity).
  assert (Kj : keys !! j = Some key) by (rewrite <- Hkeys, list_lookup_fmap, Hc; reflexivity).
  pose proof (NoDup_lookup keys i j key Hnd Ki Kj) as <-.
  rewrite Hi in Hc. injection Hc as <-. destruct Hp as [Hp | [ok Hp]]; discriminate.
Qed.

Lemma distinct_keys_never_wait_witness :
  exists st,
    NoDup ["a"; "b"] /\
    KeyLocks.run [KeyLocks.Resume 0] (KeyLocks.initial ["a"; "b"]) = Some st /\
    KeyLocks.callers st !! 1%nat = Some (KeyLocks.mkCaller "b" KeyLocks.AwaitInit) /\
    KeyLocks.step (KeyLocks.Resume 1) st = Some (KeyLocks.start 1 "b" st).
Proof.
  eexists. split; [repeat constructor; set_solver |].
  split; [reflexivity |]. split; [reflexivity |].
  apply (distinct_keys_never_wait ["a"; "b"] [KeyLocks.Resume 0]);
    [repeat constructor; set_solver | reflexivity | reflexivity].
Defined.

(** ** Failed operations leave the table unchanged *)

Lemma fa_ret {A} (a : A) : fail_atomic (retM a).
Proof. intros s e s1 H. discriminate. Qed.

Lemma fa_throw {A} e : fail_atomic (@throwM A e).
Proof. intros s e' s1 H. injection H as _ <-. reflexivity. Qed.

Lemma fa_ok {A} (c : M A) : (forall s, exists a s', c s = (Ok a, s')) -> fail_atomic c.
Proof. intros Hc s e s1 H. destruct (Hc s) as (a & s' & E). congruence. Qed.

Lemma fa_read {A} (c : M A) : read_only c -> fail_atomic c.
Proof.
  intros Hc s e s1 H. specialize (Hc (storage s) s eq_refl). rewrite H in Hc. exact Hc.
Qed.

(** A step that only reads, followed by steps that fail cleanly. *)
Lemma fa_bind_read {A B} (c : M A) (k : A -> M B) :
  read_only c -> (forall a, fail_atomic (k a)) -> fail_atomic (bindM c k).
Proof.
  intros Hc Hk s e s1 H. specialize (Hc (storage s) s eq_refl). unfold bindM in H.
  destruct (c s) as [[a | e'] s'] eqn:E; cbn in Hc.
  - rewrite (Hk a s' e s1 H). exact Hc.
  - injection H as _ <-. exact Hc.
Qed.

Lemma fa_bind_ret {A B} (c : M A) (f : A -> B) :
  fail_atomic c -> fail_atomic (bindM c (fun a => retM (f a))).
Proof.
  intros Hc s e s1 H. unfold bindM, retM in H.
  destruct (c s) as [[a | e'] s'] eqn:E; [discriminate |].
  injection H as <- <-. exact (Hc s e' s' E).
Qed.

Lemma fa_try_catch {A} (c : M A) (h : JSError -> M A) :
  fail_atomic c -> (forall e, fail_atomic (h e)) -> fail_atomic (try_catch c h).
Proof.
  intros Hc Hh s e s1 H. unfold try_catch in H.
  destruct (c s) as [[a | e'] s'] eqn:E; [discriminate |].
  rewrite (Hh e' s' e s1 H). exact (Hc s e' s' E).
Qed.

(** A transaction that rejects has rolled the table back, whatever its body. *)
Lemma fa_transaction {A} (body : M A) : fail_atomic (transaction body).
Proof.
  intros s e s1 H. unfold transaction in H.
  destruct (body (log_event EvTxBegin s)) as [[a | e'] s'].
  - destruct (engine "commit" s') as [[u | e''] s2]; [discriminate |].
    injection H as _ <-. reflexivity.
  - injection H as _ <-. reflexivity.
Qed.

Ltac solve_fail_atomic :=
  repeat match goal with
  | |- fail_atomic (transaction _) => apply fa_transaction
  | |- fail_atomic (try_catch _ _) => apply fa_try_catch; [| intros ?]
  | |- fail_atomic (throwM _) => apply fa_throw
  | |- fail_atomic (retM _) => apply fa_ret
  | |- fail_atomic ?c => apply fa_read; intros ?; solve [solve_preserves]
  | |- fail_atomic (bindM _ (fun _ => retM _)) => apply fa_bind_ret
  | |- fail_atomic (bindM _ _) =>
      apply fa_bind_read; [intros ?; solve [solve_preserves] | intros ?; cbv beta zeta]
  | |- fail_atomic (if ?b then _ else _) => destruct b
  | |- fail_atomic (fun s => (Ok _, _)) => apply fa_ok; intros ?; eexists _, _; reflexivity
  | |- fail_atomic (table_put _) => unfold table_put
  | |- fail_atomic (table_delete _) => unfold table_delete
  | |- fail_atomic table_clear => unfold table_clear
  | |- fail_atomic (table_bulkPut _) => unfold table_bulkPut
  end.

Lemma fa_performSimpleUpdate {T} (codec : Codec T) key updateFn :
  fail_atomic (_performSimpleUpdate codec key updateFn).
Proof. unfold _performSimpleUpdate. solve_fail_atomic. Qed.

Lemma fa_performAtomicUpdate {T} (codec : Codec T) key updateFn :
  fail_atomic (_performAtomicUpdate codec key updateFn).
Proof. unfold _performAtomicUpdate. solve_fail_atomic. Qed.

Lemma fa_retry_loop {T} (codec : Codec T) fuel attempt maxRetries lastError key updateFn :
  fail_atomic (retry_loop codec fuel attempt maxRetries lastError key updateFn).
Proof.
  revert attempt lastError.
  induction fuel as [| fuel IH]; intros attempt lastError; cbn [retry_loop]; [apply fa_throw |].
  apply fa_try_catch; [apply fa_bind_ret, fa_performAtomicUpdate |]. intros e.
  destruct (_ && _).
  - apply fa_bind_read; [intros ?; solve_preserves | intros; apply IH].
  - destruct (Nat.eqb _ _); [| apply IH].
    apply fa_try_catch; [apply fa_bind_ret, fa_performSimpleUpdate | intros; apply fa_throw].
Qed.

(** X9: every public operation that rejects leaves the table exactly as it
    found it: single writes touch the table only after their engine call
    succeeded, batches and atomic attempts roll back their transaction,
    and the retry loop only retries after a rollback. *)
Theorem run_request_fail_atomic r s e s1 :
  run_request r s = (Throw e, s1) -> storage s1 = storage s.
Proof.
  revert s e s1. change (fail_atomic (run_request r)).
  destruct r; cbn [run_request].
  - unfold discard, getItem. apply fa_bind_ret. solve_fail_atomic.
  - unfold setItem. solve_fail_atomic.
  - unfold removeItem. solve_fail_atomic.
  - unfold clearAll. solve_fail_atomic.
  - unfold atomicUpdate, _performAtomicUpdateWithRetry.
    apply fa_bind_read; [intros ?; solve_preserves | intros; apply fa_retry_loop].
  - unfold updateData, atomicUpdate, _performAtomicUpdateWithRetry.
    apply fa_bind_read; [intros ?; solve_preserves | intros; apply fa_retry_loop].
  - unfold batchUpdate. solve_fail_atomic.
  - unfold discard, getStorageInfo. apply fa_bind_ret. solve_fail_atomic.
  - unfold discard, exportAll. apply fa_bind_ret. solve_fail_atomic.
  - unfold importAll. solve_fail_atomic.
Qed.

(** A batch whose [bulkPut] succeeds but whose commit fails. *)
Lemma run_request_fail_atomic_witness :
  run_request (RBatchUpdate [mkOp "b" OpSet (Some "2")])
    (set_faults [None; Some "AbortError"] store_a) =
    (Throw (newError "Failed to perform batch update"),
     snd (run_request (RBatchUpdate [mkOp "b" OpSet (Some "2")])
            (set_faults [None; Some "AbortError"] store_a))) /\
  storage (snd (run_request (RBatchUpdate [mkOp "b" OpSet (Some "2")])
                  (set_faults [None; Some "AbortError"] store_a))) =
  storage (set_faults [None; Some "AbortError"] store_a).
Proof.
  split; [vm_compute; reflexivity |].
  apply (run_request_fail_atomic (RBatchUpdate [mkOp "b" OpSet (Some "2")])
           (set_faults [None; Some "AbortError"] store_a)
           (newError "Failed to perform batch update")).
  vm_compute. reflexivity.
Defined.

(** ** Removal and clearing *)

Lemma engine_dbOpened prim s : dbOpened (snd (engine prim s)) = dbOpened s.
Proof. unfold engine. cbn. destruct (faults s) as [| [nm |] rest]; reflexivity. Qed.

Lemma removeItem_deletes key s s1 :
  removeItem key s = (Ok tt, s1) -> storage s1 = delete key (storage s).
Proof.
  unfold removeItem, bindM at 1, initialize.
  destruct (dbOpened s) as [| e0]; [| discriminate].
  unfold table_delete, try_catch, bindM.
  destruct (engine "delete" s) as [[[] | e] s'] eqn:He; cbn; intros H; [| discriminate].
  inversion H; subst. cbn. rewrite (engine_ok_storage _ _ _ He). reflexivity.
Qed.

(** X10: after [removeItem(k)] succeeds, a [getItem(k)] that succeeds
    returns [null]. *)
Theorem removeItem_getItem key s s1 x s2 :
  removeItem key s = (Ok tt, s1) ->
  getItem key s1 = (Ok x, s2) ->
  x = None.
Proof.
  intros Hrm. pose proof (removeItem_deletes _ _ _ Hrm) as Hk.
  unfold getItem, bindM at 1, initialize.
  destruct (dbOpened s1) as [| e0]; [| discriminate].
  unfold table_get, try_catch, bindM, retM.
  destruct (engine "get" s1) as [[[] | e] s'] eqn:He; cbn; [| discriminate].
  intros H. inversion H; subst.
  rewrite (engine_ok_storage _ _ _ He), Hk, lookup_delete_eq. reflexivity.
Qed.

Lemma removeItem_getItem_witness :
  removeItem "a" store_a = (Ok tt, snd (removeItem "a" store_a)) /\
  getItem "a" (snd (removeItem "a" store_a)) =
    (Ok None, snd (getItem "a" (snd (removeItem "a" store_a)))) /\
  (None : option string) = None.
Proof.
  split; [vm_compute; reflexivity |]. split; [vm_compute; reflexivity |].
  apply (removeItem_getItem "a" store_a (snd (removeItem "a" store_a)) None
           (snd (getItem "a" (snd (removeItem "a" store_a)))));
  vm_compute; reflexivity.
Defined.

Lemma clearAll_empties s s1 :
  clearAll s = (Ok tt, s1) -> storage s1 = ∅ /\ dbOpened s1 = Opened.
Proof.
  unfold clearAll, bindM at 1, initialize.
  destruct (dbOpened s) as [| e0] eqn:Hdb; [| discriminate].
  unfold table_clear, try_catch, bindM.
  pose proof (engine_dbOpened "clear" s) as Hd.
  destruct (engine "clear" s) as [[[] | e] s'] eqn:He; cbn; intros H; [| discriminate].
  inversion H; subst. cbn in *. split; [reflexivity | congruence].
Qed.

Lemma getStorageInfo_empty s :
  dbOpened s = Opened -> storage s = ∅ -> fst (getStorageInfo s) = Ok zeroInfo.
Proof.
  intros Hdb Hm. unfold getStorageInfo, bindM at 1, initialize. rewrite Hdb.
  unfold try_catch, table_count, table_lastByTimestamp, table_toArray, bindM, retM.
  destruct (engine_cases "count" s) as [(s1 & E1 & M1) | (e1 & s1 & E1)];
    rewrite E1; [| reflexivity].
  destruct (engine_cases "orderBy.last" s1) as [(s2 & E2 & M2) | (e2 & s2 & E2)];
    rewrite E2; [| reflexivity].
  destruct (engine_cases "toArray" s2) as [(s3 & E3 & M3) | (e3 & s3 & E3)];
    rewrite E3; [| reflexivity].
  rewrite ?M3, ?M2, ?M1, ?Hm. reflexivity.
Qed.

(** X11: after [clearAll()] succeeds, [getStorageInfo()] resolves to
    [{ itemCount: 0, estimatedSize: 0, lastUpdated: null }], whether or not
    its own engine calls succeed. *)
Theorem clearAll_getStorageInfo s s1 :
  clearAll s = (Ok tt, s1) -> fst (getStorageInfo s1) = Ok zeroInfo.
Proof.
  intros H. destruct (clearAll_empties s s1 H) as [Hm Hdb].
  exact (getStorageInfo_empty s1 Hdb Hm).
Qed.

Lemma clearAll_getStorageInfo_witness :
  clearAll store_a = (Ok tt, snd (clearAll store_a)) /\
  fst (getStorageInfo (snd (clearAll store_a))) = Ok zeroInfo.
Proof.
  split; [vm_compute; reflexivity |].
  apply (clearAll_getStorageInfo store_a). vm_compute. reflexivity.
Defined.

(** ** Export and re-import *)

Section FoldInsert.
Context {A V : Type} (fk : A -> string) (fv : A -> V).

Lemma fold_insert_notin (l : list A) (acc : gmap string V) k :
  (forall x, In x l -> fk x <> k) ->
  fold_left (fun m x => <[fk x := fv x]> m) l acc !! k = acc !! k.
Proof.
  revert acc. induction l as [| x l IH]; intros acc Hl; [reflexivity |]. cbn [fold_left].
  rewrite IH by (intros y Hy; apply Hl; right; exact Hy).
  apply lookup_insert_ne. apply Hl. left. reflexivity.
Qed.

Lemma fold_insert_in (l : list A) (acc : gmap string V) x :
  NoDup (map fk l) -> In x l ->
  fold_left (fun m x => <[fk x := fv x]> m) l acc !! fk x = Some (fv x).
Proof.
  revert acc. induction l as [| y l IH]; intros acc Hnd Hx; [destruct Hx |].
  cbn [map] in Hnd. apply NoDup_cons in Hnd as [Hy Hnd]. cbn [fold_left].
  destruct Hx as [<- | Hx]; [| exact (IH _ Hnd Hx)].
  rewrite fold_insert_notin; [apply lookup_insert_eq |].
  intros z Hz Heq. apply Hy. rewrite <- Heq. apply list_elem_of_In, in_map, Hz.
Qed.

End FoldInsert.

Lemma map_as_fmap {A B} (f : A -> B) (l : list A) : map f l = f <$> l.
Proof. induction l as [| x l IH]; cbn; [reflexivity | rewrite IH; reflexivity]. Qed.

Lemma exportAll_ok s m s1 :
  exportAll s = (Ok m, s1) ->
  m = fold_left (fun result record => <[rec_key record := rec_value record]> result)
        (map snd (map_to_list (storage s))) ∅.
Proof.
  unfold exportAll, bindM at 1, initialize.
  destruct (dbOpened s) as [| e0]; [| discriminate].
  unfold table_toArray, try_catch, bindM, retM.
  destruct (engine "toArray" s) as [[[] | e] s'] eqn:He; cbn; [| discriminate].
  intros H. inversion H; subst. rewrite (engine_ok_storage _ _ _ He). reflexivity.
Qed.

(** With consistent keys, the exported object maps each key to its value. *)
Lemma export_values (st : gmap string StorageRecord) :
  keys_consistent st ->
  fold_left (fun result record => <[rec_key record := rec_value record]> result)
    (map snd (map_to_list st)) ∅ = rec_value <$> st.
Proof.
  intros Hkc. apply map_eq. intros k. rewrite lookup_fmap.
  destruct (st !! k) as [r |] eqn:E; cbn.
  - assert (Hr : rec_key r = k) by exact (Hkc k r E). rewrite <- Hr.
    apply (fold_insert_in rec_key rec_value).
    + replace (map rec_key (map snd (map_to_list st))) with (map fst (map_to_list st)).
      * rewrite map_as_fmap. apply NoDup_fst_map_to_list.
      * rewrite map_map. apply map_ext_in. intros [k' r'] Hin. cbn.
        apply list_elem_of_In, elem_of_map_to_list in Hin. symmetry. exact (Hkc k' r' Hin).
    + apply in_map_iff. exists (k, r). split; [reflexivity |].
      apply list_elem_of_In, elem_of_map_to_list, E.
  - rewrite fold_insert_notin; [apply lookup_empty |].
    intros r Hin Hk. apply in_map_iff in Hin as ([k' r'] & <- & Hin). cbn in Hk.
    apply list_elem_of_In, elem_of_map_to_list in Hin.
    rewrite <- (Hkc k' r' Hin), Hk in Hin. congruence.
Qed.

Lemma importAll_ok data s s1 :
  importAll data s = (Ok tt, s1) ->
  storage s1 = put_all (map (fun '(key, value) => mkRecord key value (Some (clock s))) data)
                 (storage s).
Proof.
  unfold importAll, bindM at 1, initialize.
  destruct (dbOpened s) as [| e0]; [| discriminate].
  unfold table_bulkPut, try_catch, bindM, date_now.
  destruct (engine "bulkPut" s) as [[[] | e] s'] eqn:He; cbn; [| discriminate].
  intros H. inversion H; subst. cbn. rewrite (engine_ok_storage _ _ _ He). reflexivity.
Qed.

(** Importing the entries of an object into an empty table gives back the
    object's values. *)
Lemma import_values (m : gmap string string) now :
  rec_value <$> put_all (map (fun '(key, value) => mkRecord key value (Some now))
                           (map_to_list m)) ∅ = m.
Proof.
  apply map_eq. intros k. rewrite lookup_fmap. unfold put_all.
  change (fun acc r => <[rec_key r := r]> acc)
    with (fun (acc : gmap string StorageRecord) r => <[rec_key r := id r]> acc).
  destruct (m !! k) as [v |] eqn:E.
  - rewrite (fold_insert_in rec_key id _ ∅ (mkRecord k v (Some now))); [reflexivity | |].
    + rewrite import_records_keys, map_as_fmap. apply NoDup_fst_map_to_list.
    + apply in_map_iff. exists (k, v). split; [reflexivity |].
      apply list_elem_of_In, elem_of_map_to_list, E.
  - rewrite fold_insert_notin; [reflexivity |].
    intros r Hin Hk. apply in_map_iff in Hin as ([k' v'] & <- & Hin). cbn in Hk. subst k'.
    apply list_elem_of_In, elem_of_map_to_list in Hin. congruence.
Qed.



(** ** Storage statistics *)

(** [orderBy('timestamp').last()] finds a record with the greatest
    timestamp, or none when no record has one. *)
Lemma later_max (l : list StorageRecord) :
  match fold_right later None l with
  | None => forall r, In r l -> rec_timestamp r = None
  | Some r0 => In r0 l /\ exists t0, rec_timestamp r0 = Some t0 /\
                 forall r t, In r l -> rec_timestamp r = Some t -> t <= t0
  end.
Proof.
  induction l as [| r l IH]; cbn [fold_right]; [intros r []; reflexivity |].
  unfold later at 1. destruct (rec_timestamp r) as [t |] eqn:Er.
  - destruct (fold_right later None l) as [a |] eqn:Ea.
    + destruct IH as (Ha & ta & Eta & Hmax). rewrite Eta.
      destruct (Z.leb_spec ta t) as [Hle | Hlt].
      * split; [left; reflexivity |]. exists t. split; [exact Er |].
        intros r' t' [<- | Hin] Ht'; [rewrite Er in Ht'; injection Ht' as <-; lia |].
        specialize (Hmax r' t' Hin Ht'). lia.
      * split; [right; exact Ha |]. exists ta. split; [exact Eta |].
        intros r' t' [<- | Hin] Ht'; [rewrite Er in Ht'; injection Ht' as <-; lia |].
        exact (Hmax r' t' Hin Ht').
    + split; [left; reflexivity |]. exists t. split; [exact Er |].
      intros r' t' [<- | Hin] Ht'; [rewrite Er in Ht'; injection Ht' as <-; lia |].
      rewrite (IH r' Hin) in Ht'. discriminate.
  - destruct (fold_right later None l) as [a |] eqn:Ea.
    + destruct IH as (Ha & ta & Eta & Hmax). split; [right; exact Ha |].
      exists ta. split; [exact Eta |].
      intros r' t' [<- | Hin] Ht'; [congruence |]. exact (Hmax r' t' Hin Ht').
    + intros r' [<- | Hin]; [exact Er | exact (IH r' Hin)].
Qed.

Lemma in_records (st : gmap string StorageRecord) r :
  In r (map snd (map_to_list st)) <-> exists k, st !! k = Some r.
Proof.
  rewrite in_map_iff. split.
  - intros ([k r'] & <- & Hin). exists k. apply elem_of_map_to_list, list_elem_of_In, Hin.
  - intros [k Hk]. exists (k, r). split; [reflexivity |].
    apply list_elem_of_In, elem_of_map_to_list, Hk.
Qed.

Lemma getStorageInfo_reliable_eq s :
  dbOpened s = Opened -> faults s = [] ->
  fst (getStorageInfo s) =
  Ok (mkInfo (size (storage s))
        (fold_left (fun total record => (total + String.length (rec_value record))%nat)
           (map snd (map_to_list (storage s))) 0%nat)
        (match fold_right later None (map snd (map_to_list (storage s))) with
         | Some r => rec_timestamp r
         | None => None
         end)).
Proof.
  intros Hdb Hf. unfold getStorageInfo, bindM, initialize. rewrite Hdb.
  unfold try_catch, table_count, table_lastByTimestamp, table_toArray, bindM, retM, engine,
    log_event.
  cbn. repeat (rewrite Hf; cbn). reflexivity.
Qed.

(** X13: on a healthy engine, [getStorageInfo()] reports the number of
    stored records, and [lastUpdated] is the greatest timestamp in the
    table ([null] when no record has a timestamp). *)
Theorem getStorageInfo_reliable s :
  dbOpened s = Opened -> faults s = [] ->
  exists info, fst (getStorageInfo s) = Ok info /\
    itemCount info = size (storage s) /\
    (forall k r t, storage s !! k = Some r -> rec_timestamp r = Some t ->
       exists t0, lastUpdated info = Some t0 /\ t <= t0) /\
    (forall t0, lastUpdated info = Some t0 ->
       exists k r, storage s !! k = Some r /\ rec_timestamp r = Some t0).
Proof.
  intros Hdb Hf. eexists. split; [exact (getStorageInfo_reliable_eq s Hdb Hf) |]. cbn.
  split; [reflexivity |].
  pose proof (later_max (map snd (map_to_list (storage s)))) as Hmax.
  destruct (fold_right later None _) as [r0 |].
  - destruct Hmax as (Hin & t0 & Et0 & Hle). rewrite Et0. split.
    + intros k r t Hk Ht. exists t0. split; [reflexivity |].
      apply (Hle r t); [apply in_records; exists k; exact Hk | exact Ht].
    + intros t Ht. injection Ht as <-. apply in_records in Hin as [k Hk].
      exists k, r0. split; [exact Hk | exact Et0].
  - split; [| intros t Ht; discriminate].
    intros k r t Hk Ht. exfalso. rewrite (Hmax r) in Ht; [discriminate |].
    apply in_records. exists k. exact Hk.
Qed.

(** Two records written at times [5] and [9]. *)
Lemma getStorageInfo_reliable_witness :
  let s := mkSt (<["a" := mkRecord "a" "x" (Some 9)]>
                  (<["b" := mkRecord "b" "yy" (Some 5)]> ∅)) 1000 [] [] Opened in
  dbOpened s = Opened /\ faults s = [] /\
  exists info, fst (getStorageInfo s) = Ok info /\
    itemCount info = size (storage s) /\
    (forall k r t, storage s !! k = Some r -> rec_timestamp r = Some t ->
       exists t0, lastUpdated info = Some t0 /\ t <= t0) /\
    (forall t0, lastUpdated info = Some t0 ->
       exists k r, storage s !! k = Some r /\ rec_timestamp r = Some t0).
Proof.
  intros s. split; [reflexivity |]. split; [reflexivity |].
  apply (getStorageInfo_reliable s); reflexivity.
Defined.

(** ** Bounded retries *)

Lemma tx_count_app tr1 tr2 : tx_count (tr1 ++ tr2) = (tx_count tr1 + tx_count tr2)%nat.
Proof.
  unfold tx_count. induction tr1 as [| ev tr1 IH]; [reflexivity |].
  cbn. destruct (is_tx_begin ev); cbn; rewrite IH; reflexivity.
Qed.

Lemma txb_frame {A} n (c : M A) : (forall s, trace (snd (c s)) = trace s) -> tx_bound n c.
Proof. intros Hc s. exists []. rewrite app_nil_r. split; [apply Hc | cbn; lia]. Qed.

Lemma txb_mono {A} n m (c : M A) : tx_bound n c -> (n <= m)%nat -> tx_bound m c.
Proof. intros Hc Hle s. destruct (Hc s) as (tr & E & B). exists tr. split; [exact E | lia]. Qed.

Lemma txb_bind {A B} n m (c : M A) (k : A -> M B) :
  tx_bound n c -> (forall a, tx_bound m (k a)) -> tx_bound (n + m) (bindM c k).
Proof.
  intros Hc Hk s. unfold bindM. destruct (Hc s) as (tr1 & E1 & B1).
  destruct (c s) as [[a | e] s1]; cbn in E1.
  - destruct (Hk a s1) as (tr2 & E2 & B2). exists (tr1 ++ tr2).
    rewrite E2, E1, app_assoc, tx_count_app. split; [reflexivity | lia].
  - exists tr1. split; [exact E1 | lia].
Qed.

Lemma txb_try_catch {A} n m (c : M A) (h : JSError -> M A) :
  tx_bound n c -> (forall e, tx_bound m (h e)) -> tx_bound (n + m) (try_catch c h).
Proof.
  intros Hc Hh s. unfold try_catch. destruct (Hc s) as (tr1 & E1 & B1).
  destruct (c s) as [[a | e] s1]; cbn in E1.
  - exists tr1. split; [exact E1 | lia].
  - destruct (Hh e s1) as (tr2 & E2 & B2). exists (tr1 ++ tr2).
    rewrite E2, E1, app_assoc, tx_count_app. split; [reflexivity | lia].
Qed.

Lemma txb_bind0 {A B} (c : M A) (k : A -> M B) :
  tx_bound 0 c -> (forall a, tx_bound 0 (k a)) -> tx_bound 0 (bindM c k).
Proof. intros Hc Hk. exact (txb_bind 0 0 c k Hc Hk). Qed.

Lemma txb_try_catch0 {A} (c : M A) (h : JSError -> M A) :
  tx_bound 0 c -> (forall e, tx_bound 0 (h e)) -> tx_bound 0 (try_catch c h).
Proof. intros Hc Hh. exact (txb_try_catch 0 0 c h Hc Hh). Qed.

Lemma txb_engine prim : tx_bound 0 (engine prim).
Proof.
  intros s. exists [EvCall prim]. rewrite engine_trace. split; [reflexivity | cbn; lia].
Qed.

Lemma txb_sleep d : tx_bound 0 (sleep d).
Proof. intros s. exists [EvSleep d]. split; [reflexivity | cbn; lia]. Qed.

(** A transaction opens one scope around its body. *)
Lemma txb_transaction {A} n (body : M A) : tx_bound n body -> tx_bound (S n) (transaction body).
Proof.
  intros Hb s. unfold transaction.
  destruct (Hb (log_event EvTxBegin s)) as (tr1 & E1 & B1).
  destruct (body (log_event EvTxBegin s)) as [[a | e] s1]; cbn in E1.
  - pose proof (engine_trace "commit" s1) as Et.
    destruct (engine "commit" s1) as [[u | e] s2]; cbn in Et |- *.
    + exists ((EvTxBegin :: tr1) ++ [EvCall "commit"; EvTxCommit]).
      rewrite Et, E1, <- !app_assoc. split; [reflexivity |].
      rewrite tx_count_app. unfold tx_count in *. cbn. lia.
    + exists ((EvTxBegin :: tr1) ++ [EvCall "commit"; EvTxAbort]).
      rewrite Et, E1, <- !app_assoc. split; [reflexivity |].
      rewrite tx_count_app. unfold tx_count in *. cbn. lia.
  - exists ((EvTxBegin :: tr1) ++ [EvTxAbort]).
    split; [cbn; rewrite E1, <- !app_assoc; reflexivity |].
    rewrite tx_count_app. unfold tx_count in *. cbn. lia.
Qed.

Ltac solve_txb0 :=
  repeat match goal with
  | |- tx_bound 0 (bindM _ _) => apply txb_bind0; [| intros ?]
  | |- tx_bound 0 (try_catch _ _) => apply txb_try_catch0; [| intros ?]
  | |- tx_bound 0 (engine _) => apply txb_engine
  | |- tx_bound 0 (table_get _) => unfold table_get
  | |- tx_bound 0 (table_put _) => unfold table_put
  | |- tx_bound 0 (decode _ ?r) =>
      unfold decode; destruct r; [destruct (bool_decide _); [| destruct (parse _ _)] |]
  | |- tx_bound 0 ?c => apply txb_frame; intros ?; reflexivity
  end.

Lemma txb_performSimpleUpdate {T} (codec : Codec T) key updateFn :
  tx_bound 0 (_performSimpleUpdate codec key updateFn).
Proof. unfold _performSimpleUpdate. solve_txb0. Qed.

Lemma txb_performAtomicUpdate {T} (codec : Codec T) key updateFn :
  tx_bound 1 (_performAtomicUpdate codec key updateFn).
Proof.
  unfold _performAtomicUpdate. apply (txb_mono (1 + 0)); [| lia].
  apply txb_try_catch; [apply txb_transaction; solve_txb0 | intros e].
  destruct (is_premature_commit e); solve_txb0.
Qed.

Lemma txb_retry_loop {T} (codec : Codec T) fuel attempt maxRetries lastError key updateFn :
  tx_bound fuel (retry_loop codec fuel attempt maxRetries lastError key updateFn).
Proof.
  revert attempt lastError.
  induction fuel as [| fuel IH]; intros attempt lastError; cbn [retry_loop];
    [apply txb_frame; intros; reflexivity |].
  apply (txb_mono (1 + fuel)); [| lia]. apply txb_try_catch.
  - apply (txb_mono (1 + 0)); [| lia].
    apply txb_bind; [apply txb_performAtomicUpdate | intros; apply txb_frame; reflexivity].
  - intros e. destruct (_ && _).
    + apply (txb_mono (0 + fuel)); [| lia].
      apply txb_bind; [apply txb_sleep | intros; apply IH].
    + destruct (Nat.eqb _ _); [| apply IH].
      apply (txb_mono 0); [| lia].
      apply txb_try_catch0; [| intros; apply txb_frame; reflexivity].
      apply txb_bind0; [apply txb_performSimpleUpdate | intros; apply txb_frame; reflexivity].
Qed.

(** X14: one [atomicUpdate] opens at most three transactions: the retry
    loop stops after [maxRetries = 3] attempts, and the fallback
    [_performSimpleUpdate] runs outside any transaction. *)
Theorem atomicUpdate_at_most_three_transactions {T} (codec : Codec T) key updateFn :
  tx_bound 3 (atomicUpdate codec key updateFn).
Proof.
  unfold atomicUpdate, _performAtomicUpdateWithRetry. apply (txb_mono (0 + 3)); [| lia].
  apply txb_bind; [| intros; apply txb_retry_loop].
  apply txb_frame. intros s. unfold initialize. destruct (dbOpened s); reflexivity.
Qed.
